(** * lib/api_ip.js of co-wechat-enterprise-api: a shallow embedding

    The module is a mixin: every function it assigns to [exports] is called
    with [this] bound to the API object, which carries the configuration
    ([prefix], [corpid], [agentid]) and the two collaborators
    ([ensureAccessToken], [request]).  The embedding keeps JavaScript's
    dynamic values ([jsval]), models an [async function] as a finite tree of
    awaited calls ([async]) that is run against the collaborators of a host,
    and models the [exports] object as a finite map filled by the module's
    assignments, in the order of the file. *)

From Stdlib Require Import ZArith NArith Lia Ascii String List Bool.
From stdpp Require Import base option list strings gmap.

Local Arguments String.append !_ _ /.

(** ** JavaScript values *)

(** Numbers are the integer-valued ones ([JNum z] stands for the double that
    equals [z], which the code only forwards: ids, flags, department numbers).
    A string is the sequence of bytes of its UTF-8 encoding.  An object is the
    list of its own enumerable properties in enumeration order. *)
Unset Elimination Schemes.
Inductive jsval : Type :=
| JUndefined
| JNull
| JBool (b : bool)
| JNum (z : Z)
| JStr (s : string)
| JArr (elems : list jsval)
| JObj (props : list (string * jsval)).
Set Elimination Schemes.

(** The induction principle that reaches inside arrays and objects. *)
Definition jsval_ind (P : jsval → Prop)
    (Hundef : P JUndefined) (Hnull : P JNull)
    (Hbool : ∀ b, P (JBool b)) (Hnum : ∀ z, P (JNum z))
    (Hstr : ∀ s, P (JStr s))
    (Harr : ∀ l, Forall P l → P (JArr l))
    (Hobj : ∀ m, Forall (λ kv, P kv.2) m → P (JObj m)) :
  ∀ v, P v :=
  fix go (v : jsval) : P v :=
    match v with
    | JUndefined => Hundef
    | JNull => Hnull
    | JBool b => Hbool b
    | JNum z => Hnum z
    | JStr s => Hstr s
    | JArr l =>
        Harr l (list_ind (Forall P) (List.Forall_nil P)
                  (λ x _ IH, @List.Forall_cons _ P x _ (go x) IH) l)
    | JObj m =>
        Hobj m (list_ind (Forall (λ kv, P kv.2)) (List.Forall_nil _)
                  (λ kv _ IH, @List.Forall_cons _ (λ kv, P kv.2) kv _ (go kv.2) IH) m)
    end.

(** ** Strings *)

Module Str.

(** [s.includes(pat)] *)
Fixpoint includes (s pat : string) : bool :=
  String.prefix pat s ||
  match s with
  | EmptyString => false
  | String _ r => includes r pat
  end.

(** [s.endsWith(suffix)] *)
Fixpoint endsWith (s suffix : string) : bool :=
  String.eqb s suffix ||
  match s with
  | EmptyString => false
  | String _ r => endsWith r suffix
  end.

(** [list.join(sep)] on strings *)
Fixpoint join (sep : string) (l : list string) : string :=
  match l with
  | [] => ""
  | [x] => x
  | x :: r => x +:+ sep +:+ join sep r
  end.

(** The first character of a string, when it has one. *)
Definition head (s : string) : option ascii :=
  match s with
  | EmptyString => None
  | String c _ => Some c
  end.

(** [s] without the prefix [p], when it has it. *)
Fixpoint strip (p s : string) : option string :=
  match p, s with
  | EmptyString, _ => Some s
  | String a p', String b s' => if Ascii.eqb a b then strip p' s' else None
  | String _ _, EmptyString => None
  end.

End Str.

(** ** Number to string *)

Module Number.

Definition digit (n : N) : ascii := ascii_of_N (48 + n).

(** The decimal digits of [n], most significant first, put in front of
    [acc]; [fuel] bounds the number of digits. *)
Fixpoint digits (fuel : nat) (n : N) (acc : string) : string :=
  match fuel with
  | O => acc
  | S f =>
      let acc' := String (digit (n mod 10)) acc in
      if (n / 10 =? 0)%N then acc' else digits f (n / 10) acc'
  end.

Definition N_toString (n : N) : string :=
  digits (S (N.to_nat (N.log2 n))) n "".

(** [String(z)] for an integer-valued number below 1e21 in absolute value
    (from there on JavaScript switches to the exponent notation). *)
Definition toString (z : Z) : string :=
  match z with
  | Z0 => "0"
  | Zpos p => N_toString (Npos p)
  | Zneg p => "-" +:+ N_toString (Npos p)
  end.

End Number.

(** ** Conversions and operators of the language *)

(** [ToString]: arrays go through [Array.prototype.join], which prints
    [undefined] and [null] elements as the empty string; a plain object
    prints as [[object Object]]. *)
Fixpoint ToString (v : jsval) : string :=
  match v with
  | JUndefined => "undefined"
  | JNull => "null"
  | JBool true => "true"
  | JBool false => "false"
  | JNum z => Number.toString z
  | JStr s => s
  | JArr l =>
      Str.join ","
        (map (λ x, match x with
                   | JUndefined | JNull => ""
                   | _ => ToString x
                   end) l)
  | JObj _ => "[object Object]"
  end.

(** [a + b] where one operand is a string, which is every [+] of this file:
    both operands are converted to strings and concatenated. *)
Definition js_concat (a b : jsval) : jsval := JStr (ToString a +:+ ToString b).

(** [ToBoolean]: arrays and objects are truthy, also when empty. *)
Definition truthy (v : jsval) : bool :=
  match v with
  | JUndefined | JNull => false
  | JBool b => b
  | JNum z => negb (z =? 0)%Z
  | JStr s => negb (String.eqb s "")
  | JArr _ | JObj _ => true
  end.

(** [a || b] *)
Definition js_or (a b : jsval) : jsval := if truthy a then a else b.

(** The value of the own property [k] of an object literal or parsed
    object; [undefined] when there is none. *)
Fixpoint own_property (k : string) (props : list (string * jsval)) : jsval :=
  match props with
  | [] => JUndefined
  | (k', v) :: rest => if String.eqb k k' then v else own_property k rest
  end.

(** [v[k]] for a key that no prototype defines.  [None] is the [TypeError]
    of reading a property of [undefined] or [null]. *)
Definition get_property (v : jsval) (k : string) : option jsval :=
  match v with
  | JUndefined | JNull => None
  | JObj props => Some (own_property k props)
  | _ => Some JUndefined
  end.

(** The [i]-th argument of a call; a missing argument is [undefined]. *)
Definition arg (i : nat) (args : list jsval) : jsval := nth i args JUndefined.

(** ** Node's [querystring] module *)

Module querystring.

(** The characters [querystring.escape] leaves alone: letters, digits and
    [! ' ( ) * - . _ ~]. *)
Definition noEscape (c : ascii) : bool :=
  let n := N_of_ascii c in
  ((48 <=? n) && (n <=? 57))%N || ((65 <=? n) && (n <=? 90))%N
  || ((97 <=? n) && (n <=? 122))%N
  || match c with
     | "!" | "'" | "(" | ")" | "*" | "-" | "." | "_" | "~" => true
     | _ => false
     end%char.

Definition hex (n : N) : ascii :=
  if (n <? 10)%N then ascii_of_N (48 + n) else ascii_of_N (55 + n).

(** [hexTable[c]]: a percent sign and two upper-case hexadecimal digits. *)
Definition hexTable (c : ascii) : string :=
  let n := N_of_ascii c in
  String "%" (String (hex (n / 16)) (String (hex (n mod 16)) "")).

(** [querystring.escape(s)] on the UTF-8 bytes of [s]. *)
Fixpoint escape (s : string) : string :=
  match s with
  | EmptyString => ""
  | String c r =>
      (if noEscape c then String c "" else hexTable c) +:+ escape r
  end.

(** [encodeStringified(v, encode)]: strings are escaped, numbers and
    booleans are printed, anything else gives the empty string. *)
Definition encodeStringified (v : jsval) : string :=
  match v with
  | JStr s => escape s
  | JNum z => Number.toString z
  | JBool true => "true"
  | JBool false => "false"
  | _ => ""
  end.

(** [if (fields) fields += sep] *)
Definition sep_after (fields : string) : string :=
  match fields with
  | EmptyString => ""
  | _ => fields +:+ "&"
  end.

(** The inner loop over an array value, from index [j] on. *)
Fixpoint array_fields (ks : string) (j : nat) (vs : list jsval)
    (fields : string) : string :=
  match vs with
  | [] => fields
  | v :: r =>
      let fields := if Nat.eqb j 0 then fields else fields +:+ "&" in
      array_fields ks (S j) r (fields +:+ ks +:+ encodeStringified v)
  end.

(** The loop over the keys of the object. *)
Fixpoint fields_from (props : list (string * jsval)) (fields : string)
    : string :=
  match props with
  | [] => fields
  | (k, v) :: rest =>
      let ks := escape k +:+ "=" in
      match v with
      | JArr [] => fields_from rest fields
      | JArr vs => fields_from rest (array_fields ks 0 vs (sep_after fields))
      | _ =>
          fields_from rest (sep_after fields +:+ ks +:+ encodeStringified v)
      end
  end.

(** [querystring.stringify(obj)] for an object [obj] with the own
    properties [props], with the default separators. *)
Definition stringify (props : list (string * jsval)) : string :=
  fields_from props "".

End querystring.

(** ** The built-in [JSON] object *)

Module JSON.

Definition hex_lower (n : N) : ascii :=
  if (n <? 10)%N then ascii_of_N (48 + n) else ascii_of_N (87 + n).

(** One character of [QuoteJSONString]: the quote and the backslash get a
    backslash, the control characters their short escape or a lower-case
    [\u00xx], every other byte is copied. *)
Definition quote_char (c : ascii) : string :=
  let n := N_of_ascii c in
  if (n =? 34)%N then String "\" (String "034" "")
  else if (n =? 92)%N then "\\"
  else if (n =? 8)%N then "\b"
  else if (n =? 9)%N then "\t"
  else if (n =? 10)%N then "\n"
  else if (n =? 12)%N then "\f"
  else if (n =? 13)%N then "\r"
  else if (n <? 32)%N then
    "\u00" +:+ String (hex_lower (n / 16)) (String (hex_lower (n mod 16)) "")
  else String c "".

Fixpoint quote_chars (s : string) : string :=
  match s with
  | EmptyString => ""
  | String c r => quote_char c +:+ quote_chars r
  end.

Definition quote (s : string) : string :=
  String "034" (quote_chars s +:+ String "034" "").

(** [SerializeJSONProperty]: [None] is the [undefined] that makes
    [SerializeJSONObject] leave a property out and [SerializeJSONArray]
    print [null]. *)
Fixpoint serialize (v : jsval) : option string :=
  match v with
  | JUndefined => None
  | JNull => Some "null"
  | JBool true => Some "true"
  | JBool false => Some "false"
  | JNum z => Some (Number.toString z)
  | JStr s => Some (quote s)
  | JArr l =>
      Some ("[" +:+ Str.join ","
                      (map (λ x, match serialize x with
                                 | Some s => s
                                 | None => "null"
                                 end) l) +:+ "]")
  | JObj m =>
      Some ("{" +:+ Str.join ","
                      (omap (λ kv, match serialize kv.2 with
                                   | Some s => Some (quote kv.1 +:+ ":" +:+ s)
                                   | None => None
                                   end) m) +:+ "}")
  end.

(** [JSON.stringify(v)]: a string, or [undefined]. *)
Definition stringify (v : jsval) : jsval :=
  match serialize v with
  | Some s => JStr s
  | None => JUndefined
  end.

(** *** [JSON.parse] *)

Definition is_ws (c : ascii) : bool :=
  let n := N_of_ascii c in
  (n =? 32)%N || (n =? 9)%N || (n =? 10)%N || (n =? 13)%N.

Fixpoint skip_ws (s : string) : string :=
  match s with
  | EmptyString => ""
  | String c r => if is_ws c then skip_ws r else s
  end.

Definition is_digit (c : ascii) : bool :=
  let n := N_of_ascii c in (48 <=? n)%N && (n <=? 57)%N.

Definition hex_value (c : ascii) : option N :=
  let n := N_of_ascii c in
  if ((48 <=? n) && (n <=? 57))%N then Some (n - 48)%N
  else if ((65 <=? n) && (n <=? 70))%N then Some (n - 55)%N
  else if ((97 <=? n) && (n <=? 102))%N then Some (n - 87)%N
  else None.

(** The code unit written by four hexadecimal digits. *)
Definition hex4 (a b c d : ascii) : option N :=
  match hex_value a, hex_value b, hex_value c, hex_value d with
  | Some x, Some y, Some z, Some t =>
      Some (((x * 16 + y) * 16 + z) * 16 + t)%N
  | _, _, _, _ => None
  end.

Definition byte (n : N) : ascii := ascii_of_N n.

(** The UTF-8 bytes of a code point. *)
Definition utf8 (n : N) : string :=
  if (n <? 128)%N then String (byte n) ""
  else if (n <? 2048)%N then
    String (byte (192 + n / 64)) (String (byte (128 + n mod 64)) "")
  else if (n <? 65536)%N then
    String (byte (224 + n / 4096))
      (String (byte (128 + (n / 64) mod 64))
         (String (byte (128 + n mod 64)) ""))
  else
    String (byte (240 + n / 262144))
      (String (byte (128 + (n / 4096) mod 64))
         (String (byte (128 + (n / 64) mod 64))
            (String (byte (128 + n mod 64)) ""))).

Definition is_high_surrogate (n : N) : bool := (55296 <=? n)%N && (n <? 56320)%N.
Definition is_low_surrogate (n : N) : bool := (56320 <=? n)%N && (n <? 57344)%N.

(** The characters of a string literal after its opening quote, up to the
    closing quote, and the text after it.  A surrogate escape that is not
    half of a pair has no UTF-8 bytes: such a text is outside this model of
    strings and gives [None], like a text that is not JSON. *)
Fixpoint string_body (s : string) : option (string * string) :=
  match s with
  | EmptyString => None
  | String c r =>
      let n := N_of_ascii c in
      if (n =? 34)%N then Some ("", r)
      else if (n =? 92)%N then
        match r with
        | EmptyString => None
        | String e r1 =>
            let m := N_of_ascii e in
            let simple (d : N) :=
              match string_body r1 with
              | Some (body, rest) => Some (String (byte d) body, rest)
              | None => None
              end in
            if (m =? 34)%N then simple 34%N
            else if (m =? 92)%N then simple 92%N
            else if (m =? 47)%N then simple 47%N
            else if (m =? 98)%N then simple 8%N
            else if (m =? 102)%N then simple 12%N
            else if (m =? 110)%N then simple 10%N
            else if (m =? 114)%N then simple 13%N
            else if (m =? 116)%N then simple 9%N
            else if (m =? 117)%N then
              match r1 with
              | String h1 (String h2 (String h3 (String h4 r2))) =>
                  match hex4 h1 h2 h3 h4 with
                  | None => None
                  | Some u =>
                      if is_high_surrogate u then
                        match r2 with
                        | String b1 (String b2
                            (String l1 (String l2 (String l3 (String l4 r3))))) =>
                            if ((N_of_ascii b1 =? 92)
                                && (N_of_ascii b2 =? 117))%N
                            then
                              match hex4 l1 l2 l3 l4 with
                              | Some lo =>
                                  if is_low_surrogate lo then
                                    match string_body r3 with
                                    | Some (body, rest) =>
                                        Some (utf8 (65536 + (u - 55296) * 1024
                                                    + (lo - 56320)) +:+ body,
                                              rest)
                                    | None => None
                                    end
                                  else None
                              | None => None
                              end
                            else None
                        | _ => None
                        end
                      else if is_low_surrogate u then None
                      else
                        match string_body r2 with
                        | Some (body, rest) => Some (utf8 u +:+ body, rest)
                        | None => None
                        end
                  end
              | _ => None
              end
            else None
        end
      else if (n <? 32)%N then None
      else
        match string_body r with
        | Some (body, rest) => Some (String c body, rest)
        | None => None
        end
  end.

(** The longest run of digits at the head of [s], and the rest. *)
Fixpoint span_digits (s : string) : string * string :=
  match s with
  | EmptyString => ("", "")
  | String c r =>
      if is_digit c then
        let '(ds, rest) := span_digits r in (String c ds, rest)
      else ("", s)
  end.

Fixpoint digits_value (ds : string) (acc : N) : N :=
  match ds with
  | EmptyString => acc
  | String c r => digits_value r (acc * 10 + (N_of_ascii c - 48))%N
  end.

(** The digits of a number token and the text after them.  [None] for a
    token that is malformed (no digit, or a zero in front of other digits),
    and also for one with a fraction or an exponent, which denotes a value
    that [JNum] may not have. *)
Definition unsigned_number (s : string) : option (N * string) :=
  let '(ds, rest) := span_digits s in
  let continued :=
    match rest with
    | String c _ =>
        let n := N_of_ascii c in (n =? 46)%N || (n =? 101)%N || (n =? 69)%N
    | EmptyString => false
    end in
  if continued then None
  else
    match ds with
    | EmptyString => None
    | String c EmptyString => Some (digits_value ds 0, rest)
    | String c (String _ _) =>
        if (N_of_ascii c =? 48)%N then None else Some (digits_value ds 0, rest)
    end.

(** A number token, with its sign. *)
Definition parse_number (s : string) : option (Z * string) :=
  match s with
  | EmptyString => None
  | String c r =>
      if (N_of_ascii c =? 45)%N then
        match unsigned_number r with
        | Some (n, rest) => Some ((- Z.of_N n)%Z, rest)
        | None => None
        end
      else
        match unsigned_number s with
        | Some (n, rest) => Some (Z.of_N n, rest)
        | None => None
        end
  end.

(** [CreateDataProperty]: a key the object already has keeps its place and
    takes the new value; a new key goes to the end. *)
Fixpoint set_property (k : string) (v : jsval) (props : list (string * jsval))
    : list (string * jsval) :=
  match props with
  | [] => [(k, v)]
  | (k', v') :: rest =>
      if String.eqb k k' then (k', v) :: rest
      else (k', v') :: set_property k v rest
  end.

(** The elements of an array after the first [[] or a comma; [pv] parses
    one value. *)
Fixpoint parse_elements (fuel : nat) (pv : string → option (jsval * string))
    (s : string) (acc : list jsval) : option (jsval * string) :=
  match fuel with
  | O => None
  | S f =>
      match pv s with
      | None => None
      | Some (v, r) =>
          match skip_ws r with
          | EmptyString => None
          | String c r1 =>
              if (N_of_ascii c =? 44)%N then
                parse_elements f pv r1 (acc ++ [v])
              else if (N_of_ascii c =? 93)%N then Some (JArr (acc ++ [v]), r1)
              else None
          end
      end
  end.

(** The members of an object after the first [{] or a comma. *)
Fixpoint parse_members (fuel : nat) (pv : string → option (jsval * string))
    (s : string) (acc : list (string * jsval)) : option (jsval * string) :=
  match fuel with
  | O => None
  | S f =>
      match skip_ws s with
      | EmptyString => None
      | String q r =>
          if (N_of_ascii q =? 34)%N then
            match string_body r with
            | None => None
            | Some (k, r1) =>
                match skip_ws r1 with
                | EmptyString => None
                | String c r2 =>
                    if (N_of_ascii c =? 58)%N then
                      match pv r2 with
                      | None => None
                      | Some (v, r3) =>
                          match skip_ws r3 with
                          | EmptyString => None
                          | String d r4 =>
                              if (N_of_ascii d =? 44)%N then
                                parse_members f pv r4 (set_property k v acc)
                              else if (N_of_ascii d =? 125)%N then
                                Some (JObj (set_property k v acc), r4)
                              else None
                          end
                      end
                    else None
                end
            end
          else None
      end
  end.

(** One JSON value at the head of [s], after white space, and the text that
    follows it.  Every level of nesting and every element uses one unit of
    [fuel], and at least one character of the text. *)
Fixpoint parse_value (fuel : nat) (s : string) : option (jsval * string) :=
  match fuel with
  | O => None
  | S f =>
      match skip_ws s with
      | EmptyString => None
      | String c r =>
          let n := N_of_ascii c in
          if (n =? 91)%N then
            match Str.strip "]" (skip_ws r) with
            | Some r1 => Some (JArr [], r1)
            | None => parse_elements f (parse_value f) r []
            end
          else if (n =? 123)%N then
            match Str.strip "}" (skip_ws r) with
            | Some r1 => Some (JObj [], r1)
            | None => parse_members f (parse_value f) r []
            end
          else if (n =? 34)%N then
            match string_body r with
            | Some (str, r1) => Some (JStr str, r1)
            | None => None
            end
          else if (n =? 110)%N then
            match Str.strip "ull" r with
            | Some r1 => Some (JNull, r1)
            | None => None
            end
          else if (n =? 116)%N then
            match Str.strip "rue" r with
            | Some r1 => Some (JBool true, r1)
            | None => None
            end
          else if (n =? 102)%N then
            match Str.strip "alse" r with
            | Some r1 => Some (JBool false, r1)
            | None => None
            end
          else
            match parse_number (String c r) with
            | Some (z, r1) => Some (JNum z, r1)
            | None => None
            end
      end
  end.

(** [JSON.parse(text)]; [None] when it throws its [SyntaxError] (or the
    text denotes a value outside this model, see above). *)
Definition parse (text : string) : option jsval :=
  match parse_value (S (String.length text)) text with
  | Some (v, r) =>
      match skip_ws r with
      | EmptyString => Some v
      | String _ _ => None
      end
  | None => None
  end.

(** The values [JSON.stringify] and [JSON.parse] carry back and forth:
    nothing [undefined] inside, and objects whose keys are distinct (as the
    keys of an object are). *)
Fixpoint distinct (ks : list string) : bool :=
  match ks with
  | [] => true
  | k :: r => negb (existsb (String.eqb k) r) && distinct r
  end.

Fixpoint representable (v : jsval) : bool :=
  match v with
  | JUndefined => false
  | JArr l => forallb representable l
  | JObj m => distinct (map fst m) && forallb (λ kv, representable kv.2) m
  | _ => true
  end.

End JSON.

(** ** ./util *)

Module util.

(** Modelled from the spec: ./util, which defines [postJSON], is not among
    the sources.  The spec describes it as the JSON-body helper that wraps a
    structured payload for POST semantics: the payload is serialised as JSON
    and attached as the request payload.  The options it returns are
    modelled with these two properties: the method, and the serialised text
    as the data of the request. *)
Definition postJSON (data : jsval) : jsval :=
  JObj [("method", JStr "POST"); ("data", JSON.stringify data)].

End util.

(** ** Asynchronous functions and the host object *)

(** What a rejected promise carries: a value thrown or rejected by a
    collaborator, or the [TypeError] the language raises itself. *)
Inductive error : Type :=
| Thrown (v : jsval)
| TypeError.

Inductive settled (A : Type) : Type :=
| Fulfilled (a : A)
| Rejected (e : error).
Arguments Fulfilled {A} a.
Arguments Rejected {A} e.

(** The two collaborators a function of this module can call on [this]. *)
Inductive call : Type :=
| EnsureAccessToken
| Request (args : list jsval).

(** The body of an [async function]: it returns, throws, or awaits a call
    and goes on with the value the call is fulfilled with. *)
Inductive async (A : Type) : Type :=
| Return (a : A)
| Throw (e : error)
| Await (c : call) (k : jsval → async A).
Arguments Return {A} a.
Arguments Throw {A} e.
Arguments Await {A} c k.

Fixpoint async_bind {A B : Type} (f : A → async B) (p : async A) : async B :=
  match p with
  | Return a => f a
  | Throw e => Throw e
  | Await c k => Await c (λ v, async_bind f (k v))
  end.

Global Instance async_ret : MRet async := @Return.
Global Instance async_mbind : MBind async := @async_bind.

(** [await this.f(...)], and also [return this.f(...)], which settles the
    function's promise the way the call settles. *)
Definition await (c : call) : async jsval := Await c Return.

(** [const { key } = v] *)
Definition destructure (v : jsval) (key : string) : async jsval :=
  match get_property v key with
  | Some x => Return x
  | None => Throw TypeError
  end.

(** The API object the functions are mixed into.  [W] is the state of the
    world outside this module (the token store, the network); a collaborator
    reads and changes it and settles with a value or an error. *)
Record host (W : Type) : Type := Host {
  prefix : jsval;
  corpid : jsval;
  agentid : jsval;
  ensureAccessToken : W → settled jsval * W;
  request : list jsval → W → settled jsval * W
}.
Arguments Host {W}.
Arguments prefix {W}.
Arguments corpid {W}.
Arguments agentid {W}.
Arguments ensureAccessToken {W}.
Arguments request {W}.

Section Run.
Context {W : Type}.

Definition perform (this : host W) (c : call) (w : W) : settled jsval * W :=
  match c with
  | EnsureAccessToken => ensureAccessToken this w
  | Request args => request this args w
  end.

(** Running a function body on a host: how its promise settles, the world
    it leaves, and the calls it made on the collaborators, in order. *)
Fixpoint run {A : Type} (this : host W) (p : async A) (w : W)
    : settled A * W * list call :=
  match p with
  | Return a => (Fulfilled a, w, [])
  | Throw e => (Rejected e, w, [])
  | Await c k =>
      match perform this c w with
      | (Fulfilled v, w') =>
          let '(r, w'', log) := run this (k v) w' in (r, w'', c :: log)
      | (Rejected e, w') => (Rejected e, w', [c])
      end
  end.

End Run.

(** The transport calls of a log. *)
Definition requests (log : list call) : list (list jsval) :=
  omap (λ c, match c with Request args => Some args | _ => None end) log.

Infix ".+" := js_concat (at level 50, left associativity).

(** ** The functions of lib/api_ip.js *)

Section Api.
Context {W : Type}.

(** [postJSON] is imported from ./util; the functions below only pass its
    result on to [this.request]. *)
Variable postJSON : jsval → jsval.

Definition getCallbackIp (this : host W) (args : list jsval) : async jsval :=
  r ← await EnsureAccessToken;
  accessToken ← destructure r "accessToken";
  let url := prefix this .+ JStr "getcallbackip?access_token=" .+ accessToken in
  await (Request [url]).

Definition createUser (this : host W) (args : list jsval) : async jsval :=
  let user := arg 0 args in
  r ← await EnsureAccessToken;
  accessToken ← destructure r "accessToken";
  let url := prefix this .+ JStr "user/create?access_token=" .+ accessToken in
  await (Request [url; postJSON user]).

Definition updateUser (this : host W) (args : list jsval) : async jsval :=
  let user := arg 0 args in
  r ← await EnsureAccessToken;
  accessToken ← destructure r "accessToken";
  let url := prefix this .+ JStr "user/update?access_token=" .+ accessToken in
  await (Request [url; postJSON user]).

(** The first of the two functions assigned to [exports.deleteUser]
    (line 111 of the file): it deletes one member. *)
Definition deleteUser_single (this : host W) (args : list jsval)
    : async jsval :=
  let id := arg 0 args in
  r ← await EnsureAccessToken;
  accessToken ← destructure r "accessToken";
  let url := prefix this .+ JStr "user/delete?access_token=" .+ accessToken in
  let opts := JObj [("data", JObj [("userid", id)])] in
  await (Request [url; opts]).

(** The second function assigned to [exports.deleteUser] (line 135): it
    deletes a list of members. *)
Definition deleteUser (this : host W) (args : list jsval) : async jsval :=
  let users := arg 0 args in
  r ← await EnsureAccessToken;
  accessToken ← destructure r "accessToken";
  let url :=
    prefix this .+ JStr "user/batchdelete?access_token=" .+ accessToken in
  let opts := JObj [("useridlist", users)] in
  await (Request [url; postJSON opts]).

Definition getUser (this : host W) (args : list jsval) : async jsval :=
  let id := arg 0 args in
  r ← await EnsureAccessToken;
  accessToken ← destructure r "accessToken";
  let url := prefix this .+ JStr "user/get?access_token=" .+ accessToken in
  let opts := JObj [("data", JObj [("userid", id)])] in
  await (Request [url; opts]).

Definition getDepartmentUsers (this : host W) (args : list jsval)
    : async jsval :=
  let departmentId := arg 0 args in
  let fetchChild := arg 1 args in
  r ← await EnsureAccessToken;
  accessToken ← destructure r "accessToken";
  let url :=
    prefix this .+ JStr "user/simplelist?access_token=" .+ accessToken in
  let opts :=
    JObj [("data", JObj [("department_id", departmentId);
                         ("fetch_child", fetchChild)])] in
  await (Request [url; opts]).

Definition getDepartmentUsersDetail (this : host W) (args : list jsval)
    : async jsval :=
  let departmentId := arg 0 args in
  let fetchChild := arg 1 args in
  r ← await EnsureAccessToken;
  accessToken ← destructure r "accessToken";
  let url := prefix this .+ JStr "user/list?access_token=" .+ accessToken in
  let opts :=
    JObj [("data", JObj [("department_id", departmentId);
                         ("fetch_child", fetchChild)])] in
  await (Request [url; opts]).

Definition inviteUser (this : host W) (args : list jsval) : async jsval :=
  let user := arg 0 args in
  let party := arg 1 args in
  let tag := arg 2 args in
  r ← await EnsureAccessToken;
  accessToken ← destructure r "accessToken";
  let url := prefix this .+ JStr "batch/invite?access_token=" .+ accessToken in
  let opts := JObj [("user", user); ("party", party); ("tag", tag)] in
  await (Request [url; postJSON opts]).

Definition getUserIdByCode (this : host W) (args : list jsval)
    : async jsval :=
  let code := arg 0 args in
  r ← await EnsureAccessToken;
  accessToken ← destructure r "accessToken";
  let url :=
    prefix this .+ JStr "user/getuserinfo?access_token=" .+ accessToken in
  let opts :=
    JObj [("data", JObj [("code", code); ("agentid", agentid this)])] in
  await (Request [url; opts]).

(** The properties of the object literal [info] of [getAuthorizeURL]. *)
Definition authorize_info (this : host W) (redirect state scope : jsval)
    : list (string * jsval) :=
  [("appid", corpid this);
   ("redirect_uri", redirect);
   ("response_type", JStr "code");
   ("scope", js_or scope (JStr "snsapi_base"));
   ("state", js_or state (JStr ""))].

(** Not an [async function]: it returns the string itself. *)
Definition getAuthorizeURL (this : host W) (args : list jsval) : jsval :=
  let redirect := arg 0 args in
  let state := arg 1 args in
  let scope := arg 2 args in
  let url := JStr "https://open.weixin.qq.com/connect/oauth2/authorize" in
  let info := authorize_info this redirect state scope in
  url .+ JStr "?" .+ JStr (querystring.stringify info)
      .+ JStr "#wechat_redirect".

(** *** The [exports] object *)

Inductive exported : Type :=
| AsyncFn (f : host W → list jsval → async jsval)
| SyncFn (f : host W → list jsval → jsval).

(** The assignments [exports.name = function ...] of the file, top down. *)
Definition assignments : list (string * exported) :=
  [("getCallbackIp", AsyncFn getCallbackIp);
   ("createUser", AsyncFn createUser);
   ("updateUser", AsyncFn updateUser);
   ("deleteUser", AsyncFn deleteUser_single);
   ("deleteUser", AsyncFn deleteUser);
   ("getUser", AsyncFn getUser);
   ("getDepartmentUsers", AsyncFn getDepartmentUsers);
   ("getDepartmentUsersDetail", AsyncFn getDepartmentUsersDetail);
   ("inviteUser", AsyncFn inviteUser);
   ("getUserIdByCode", AsyncFn getUserIdByCode);
   ("getAuthorizeURL", SyncFn getAuthorizeURL)].

(** [exports.k = f] *)
Definition assign (m : gmap string exported) (kf : string * exported)
    : gmap string exported :=
  <[kf.1 := kf.2]> m.

(** The object once the module is loaded. *)
Definition exports : gmap string exported := foldl assign ∅ assignments.

(** Calling an exported function with [this] bound to a host: the way the
    call settles (for the synchronous function: what it returns), the world
    afterwards and the calls made on the collaborators. *)
Definition call_exported (fn : exported) (this : host W) (args : list jsval)
    (w : W) : settled jsval * W * list call :=
  match fn with
  | AsyncFn f => run this (f this args) w
  | SyncFn f => (Fulfilled (f this args), w, [])
  end.

(** [this.name(...args)] on a host that has the module mixed in; [None]
    when the module exports no such name. *)
Definition invoke (name : string) (this : host W) (args : list jsval)
    (w : W) : option (settled jsval * W * list call) :=
  match exports !! name with
  | Some fn => Some (call_exported fn this args w)
  | None => None
  end.

End Api.

Arguments exported : clear implicits.

(** ** Vocabulary of the statements *)

(** The shape the ten asynchronous functions share: resolve the token, build
    the URL from the prefix, a path ending in [?access_token=] and the token,
    and hand the URL and the other arguments to the transport. *)
Definition gated {W : Type} (this : host W) (path : string)
    (others : list jsval) : async jsval :=
  r ← await EnsureAccessToken;
  accessToken ← destructure r "accessToken";
  await (Request ((prefix this .+ JStr path .+ accessToken) :: others)).

(** The exported name of each token-gated operation, with its path. *)
Definition gated_paths : list (string * string) :=
  [("getCallbackIp", "getcallbackip");
   ("createUser", "user/create");
   ("updateUser", "user/update");
   ("deleteUser", "user/batchdelete");
   ("getUser", "user/get");
   ("getDepartmentUsers", "user/simplelist");
   ("getDepartmentUsersDetail", "user/list");
   ("inviteUser", "batch/invite");
   ("getUserIdByCode", "user/getuserinfo")].

(** The same host with another [agentid]. *)
Definition with_agentid {W : Type} (a : jsval) (this : host W) : host W :=
  Host (prefix this) (corpid this) a (ensureAccessToken this) (request this).

(** Two hosts to try the statements on.  The world counts the calls made on
    the collaborators.  The first has a token and a transport that answers;
    the accessor of the second rejects. *)
Definition sample_host : host nat :=
  Host (JStr "https://qyapi.weixin.qq.com/cgi-bin/") (JStr "wx1234")
    (JNum 1000002)
    (λ w, (Fulfilled (JObj [("accessToken", JStr "TOKEN")]), S w))
    (λ args w,
       (Fulfilled (JObj [("errcode", JNum 0); ("errmsg", JStr "ok")]), S w)).

Definition expired_host : host nat :=
  Host (JStr "https://qyapi.weixin.qq.com/cgi-bin/") (JStr "wx1234")
    (JNum 1000002)
    (λ w, (Rejected (Thrown (JStr "token expired")), S w))
    (λ args w, (Fulfilled (JObj [("errcode", JNum 0)]), S w)).

(** A value that is an array, which [querystring.stringify] spreads over
    several fields. *)
Definition is_array (v : jsval) : bool :=
  match v with
  | JArr _ => true
  | _ => false
  end.

(** The parts of the authorization URL: what stands before the query
    string, the fields of [appid], and those up to [redirect_uri], each with
    the separator that follows it. *)
Definition authorize_base : string :=
  "https://open.weixin.qq.com/connect/oauth2/authorize?".

Definition appid_fields {W : Type} (this : host W) : string :=
  querystring.sep_after (querystring.fields_from [("appid", corpid this)] "").

Definition authorize_head {W : Type} (this : host W) (redirect : jsval)
    : string :=
  querystring.sep_after
    (querystring.fields_from
       [("appid", corpid this); ("redirect_uri", redirect)] "").

(** The rest of the URL in the example of the spec, with the default scope
    and with [snsapi_userinfo]. *)
Definition default_tail : string :=
  "redirect_uri=https%3A%2F%2Fcb.example&response_type=code&scope=snsapi_base&state=s1#wechat_redirect".

Definition userinfo_tail : string :=
  "redirect_uri=https%3A%2F%2Fcb.example&response_type=code&scope=snsapi_userinfo&state=s1#wechat_redirect".

(** No character of [s] is the equals sign. *)
Fixpoint eq_free (s : string) : bool :=
  match s with
  | EmptyString => true
  | String c r => negb (Ascii.eqb c "=") && eq_free r
  end.

(** [s] starts with an equals sign. *)
Definition eq_head (s : string) : bool :=
  match s with
  | EmptyString => false
  | String c _ => Ascii.eqb c "="
  end.

(** [s] has no [e=] inside and no [=] in front, as the fields of a key that
    does not end in [e] are, whatever the escaped values. *)
Definition tame (s : string) : Prop :=
  Str.includes s "e=" = false ∧ eq_head s = false.

(** Every character of [s] is a decimal digit. *)
Fixpoint all_digits (s : string) : bool :=
  match s with
  | EmptyString => true
  | String c r => JSON.is_digit c && all_digits r
  end.

(** What may follow a value inside a JSON text: nothing, a comma, or a
    closing bracket or brace. *)
Definition delimited (rest : string) : bool :=
  match rest with
  | EmptyString => true
  | String c _ =>
      let n := N_of_ascii c in (n =? 44)%N || (n =? 93)%N || (n =? 125)%N
  end.

(** The characters a serialised value can start with. *)
Definition value_start (c : ascii) : bool :=
  let n := N_of_ascii c in
  JSON.is_digit c || (n =? 45)%N || (n =? 34)%N || (n =? 91)%N || (n =? 123)%N
  || (n =? 110)%N || (n =? 116)%N || (n =? 102)%N.

(** The text of an array element and of an object member. *)
Definition element_text (x : jsval) : string :=
  match JSON.serialize x with
  | Some s => s
  | None => "null"
  end.

Definition member_text (kv : string * jsval) : string :=
  JSON.quote kv.1 +:+ ":" +:+ element_text kv.2.

(** The number of values in a value: a bound on the fuel its text needs. *)
Fixpoint size (v : jsval) : nat :=
  match v with
  | JArr l => S (list_sum (map size l))
  | JObj m => S (list_sum (map (λ kv, size kv.2) m))
  | _ => 1
  end.

(** [pv] reads the text of [x] back, whatever may follow it. *)
Definition reads_back (pv : string → option (jsval * string)) (x : jsval)
    : Prop :=
  ∀ rest, delimited rest = true →
    pv (element_text x +:+ rest) = Some (x, rest).

(** ** Vocabulary of the further properties *)

(** The same host with another [corpid]. *)
Definition with_corpid {W : Type} (c : jsval) (this : host W) : host W :=
  Host (prefix this) c (agentid this) (ensureAccessToken this) (request this).

(** The names [exports] holds once the module is loaded. *)
Definition exported_names : list string :=
  ["getCallbackIp"; "createUser"; "updateUser"; "deleteUser"; "getUser";
   "getDepartmentUsers"; "getDepartmentUsersDetail"; "inviteUser";
   "getUserIdByCode"; "getAuthorizeURL"].

(** The first argument of each transport call of a log: the URLs. *)
Definition request_urls (log : list call) : list jsval :=
  map (arg 0) (requests log).

(** How often the character [c] stands in [s]. *)
Fixpoint count (c : ascii) (s : string) : nat :=
  match s with
  | EmptyString => 0
  | String d r => (if Ascii.eqb c d then 1 else 0) + count c r
  end.

(** Percent-decoding, as the receiver of a query string does it: a percent
    sign and two hexadecimal digits stand for one byte. *)
Fixpoint percent_decode (s : string) : string :=
  match s with
  | EmptyString => ""
  | String c r =>
      match r with
      | String h (String l r') =>
          match Ascii.eqb c "%", JSON.hex_value h, JSON.hex_value l with
          | true, Some x, Some y =>
              String (ascii_of_N (x * 16 + y)) (percent_decode r')
          | _, _, _ => String c (percent_decode r)
          end
      | _ => String c (percent_decode r)
      end
  end.

(** Every character of [s] is one that [querystring.escape] leaves alone, or
    a percent sign. *)
Fixpoint url_safe (s : string) : bool :=
  match s with
  | EmptyString => true
  | String c r => (querystring.noEscape c || Ascii.eqb c "%") && url_safe r
  end.

(** * Properties *)

(** ** The model on concrete inputs *)

Example ToString_array :
  ToString (JArr [JNum 12; JNull; JArr [JStr "a"; JBool true]; JObj []]) =
  "12,,a,true,[object Object]".
Proof. reflexivity. Qed.

Example escape_reserved :
  querystring.escape "https://cb.example/a b?x=1&y=(~)" =
  "https%3A%2F%2Fcb.example%2Fa%20b%3Fx%3D1%26y%3D(~)".
Proof. reflexivity. Qed.

Example stringify_array_values :
  querystring.stringify
    [("a", JArr [JStr "x"; JNum 2]); ("b", JArr []); ("c", JNull);
     ("d", JBool false); ("e", JNum (-7))] =
  "a=x&a=2&c=&d=false&e=-7".
Proof. reflexivity. Qed.

Example getAuthorizeURL_sample :
  getAuthorizeURL sample_host [JStr "https://cb.example"; JStr "s1"] =
  JStr "https://open.weixin.qq.com/connect/oauth2/authorize?appid=wx1234&redirect_uri=https%3A%2F%2Fcb.example&response_type=code&scope=snsapi_base&state=s1#wechat_redirect".
Proof. reflexivity. Qed.

Example serialize_array :
  JSON.serialize
    (JArr [JNum 1; JUndefined; JNull; JBool true; JNum (-20); JArr []]) =
  Some "[1,null,null,true,-20,[]]".
Proof. reflexivity. Qed.

Example serialize_undefined_property :
  JSON.serialize (JObj [("a", JUndefined)]) = Some "{}".
Proof. reflexivity. Qed.

Example parse_white_space :
  JSON.parse " [ 1 , [ ] , { } , null , -0 ] " =
  Some (JArr [JNum 1; JArr []; JObj []; JNull; JNum 0]).
Proof. reflexivity. Qed.

Example parse_refuses :
  JSON.parse "[1,]" = None ∧ JSON.parse "01" = None ∧ JSON.parse "nul" = None
  ∧ JSON.parse "[1] 2" = None ∧ JSON.parse "" = None.
Proof. repeat split; reflexivity. Qed.

Example exports_has_no_deleteUsers :
  invoke util.postJSON "deleteUsers" sample_host [JArr [JStr "lisi"]] 0 = None.
Proof. reflexivity. Qed.

Example getCallbackIp_sample :
  invoke util.postJSON "getCallbackIp" sample_host [] 0 =
  Some (Fulfilled (JObj [("errcode", JNum 0); ("errmsg", JStr "ok")]), 2,
        [EnsureAccessToken;
         Request
           [JStr "https://qyapi.weixin.qq.com/cgi-bin/getcallbackip?access_token=TOKEN"]]).
Proof. reflexivity. Qed.

(** ** Strings *)

Module StrFacts.

Lemma app_nil_r (s : string) : s +:+ "" = s.
Proof. induction s; simpl; congruence. Qed.

Lemma app_assoc (a b c : string) : (a +:+ b) +:+ c = a +:+ (b +:+ c).
Proof. induction a; simpl; congruence. Qed.

Lemma app_length (a b : string) :
  String.length (a +:+ b) = String.length a + String.length b.
Proof. induction a; simpl; auto. Qed.

Lemma prefix_app (p r : string) : String.prefix p (p +:+ r) = true.
Proof.
  induction p as [|c p IH]; simpl.
  - by destruct r.
  - destruct (ascii_dec c c); [apply IH | congruence].
Qed.

Lemma includes_prefix (s pat : string) :
  String.prefix pat s = true → Str.includes s pat = true.
Proof. intros H. destruct s; cbn [Str.includes]; rewrite H; reflexivity. Qed.

Lemma includes_intro (l pat r : string) :
  Str.includes (l +:+ pat +:+ r) pat = true.
Proof.
  induction l as [|c l IH].
  - apply includes_prefix. exact (prefix_app pat r).
  - simpl. rewrite IH. apply orb_true_r.
Qed.

Lemma endsWith_intro (l suffix : string) :
  Str.endsWith (l +:+ suffix) suffix = true.
Proof.
  induction l as [|c l IH].
  - destruct suffix; simpl; [reflexivity|].
    rewrite Ascii.eqb_refl, String.eqb_refl. reflexivity.
  - simpl. rewrite IH. apply orb_true_r.
Qed.

End StrFacts.

(** ** The token-gated pattern *)

Section Gated.
Context {W : Type}.
Variable postJSON : jsval → jsval.

(** What a call of that shape does, by the way the accessor settles. *)
Lemma run_gated (this : host W) (path : string) (others : list jsval) (w : W) :
  run this (gated this path others) w =
  match ensureAccessToken this w with
  | (Rejected e, w1) => (Rejected e, w1, [EnsureAccessToken])
  | (Fulfilled r, w1) =>
      match get_property r "accessToken" with
      | None => (Rejected TypeError, w1, [EnsureAccessToken])
      | Some accessToken =>
          let req := (prefix this .+ JStr path .+ accessToken) :: others in
          ((request this req w1).1, (request this req w1).2,
           [EnsureAccessToken; Request req])
      end
  end.
Proof.
  unfold gated, await, destructure. simpl.
  destruct (ensureAccessToken this w) as [[r|e] w1]; [|reflexivity].
  destruct (get_property r "accessToken") as [tok|]; simpl; [|reflexivity].
  destruct (request this _ w1) as [[v|e] w2]; reflexivity.
Qed.

(** With a resolved token, the requests of such a call are the one. *)
Lemma requests_gated (this : host W) (path : string) (others : list jsval)
    (w w1 : W) (r accessToken : jsval) :
  ensureAccessToken this w = (Fulfilled r, w1) →
  get_property r "accessToken" = Some accessToken →
  requests (run this (gated this path others) w).2 =
    [(prefix this .+ JStr path .+ accessToken) :: others].
Proof. intros Hens Htok. by rewrite run_gated, Hens, Htok. Qed.

(** The path and the other arguments of each function assigned in the file,
    the shadowed [deleteUser] included. *)
Lemma assigned_async_gated (name : string)
    (f : host W → list jsval → async jsval) :
  In (name, AsyncFn f) (assignments postJSON) →
  ∃ path others, ∀ this args, f this args = gated this path (others this args).
Proof.
  unfold assignments. simpl.
  intros H.
  repeat (destruct H as [H|H];
          [injection H as _ <-; eexists _, (λ this args, _); intros;
           reflexivity|]);
    try discriminate; destruct H as [H|[]]; discriminate H.
Qed.

Lemma lookup_assign_in (l : list (string * exported W))
    (m : gmap string (exported W)) (k : string) (fn : exported W) :
  foldl assign m l !! k = Some fn → In (k, fn) l ∨ m !! k = Some fn.
Proof.
  revert m. induction l as [|[k' fn'] l IH]; intros m H; simpl in *.
  - by right.
  - destruct (IH _ H) as [Hin|Hm]; [by left; right|].
    unfold assign in Hm. simpl in Hm.
    destruct (decide (k' = k)) as [->|Hne].
    + rewrite lookup_insert_eq in Hm. left; left. congruence.
    + rewrite lookup_insert_ne in Hm by done. by right.
Qed.

(** Whatever [exports] holds under a name was assigned in the file. *)
Lemma exports_assigned (name : string) (fn : exported W) :
  exports postJSON !! name = Some fn → In (name, fn) (assignments postJSON).
Proof.
  intros H. apply lookup_assign_in in H as [H|H]; [done|].
  by rewrite lookup_empty in H.
Qed.

(** The collaborators of a host do not read its [agentid]. *)
Lemma run_with_agentid {A : Type} (a : jsval) (this : host W) (p : async A)
    (w : W) :
  run (with_agentid a this) p w = run this p w.
Proof.
  revert w. induction p as [x|e|c k IH]; intros w; simpl; [done..|].
  change (perform (with_agentid a this) c w) with (perform this c w).
  destruct (perform this c w) as [[v|e] w1]; [|done].
  by rewrite IH.
Qed.

End Gated.

(** A call of the gated shape whose options were built by [util.postJSON]
    makes no request with the options of the single-member delete. *)
Lemma gated_postJSON_not_by_id {W : Type} (this : host W) (path : string)
    (data : jsval) (w : W) (req : list jsval) (u id : jsval) :
  In req (requests (run this (gated this path [util.postJSON data]) w).2) →
  req ≠ [u; JObj [("data", JObj [("userid", id)])]].
Proof.
  rewrite run_gated.
  destruct (ensureAccessToken this w) as [[r|e] w1]; simpl; [|tauto].
  destruct (get_property r "accessToken") as [tok|]; simpl; [|tauto].
  intros [<-|[]]. unfold util.postJSON. congruence.
Qed.

(** ** The claims about the token-gated operations *)

Section Invoke.
Context {W : Type}.
Variable postJSON : jsval → jsval.

(** An exported function of the gated shape, called on a host whose accessor
    resolves: one request, and the call settles as the request does. *)
Lemma invoke_gated (name : string) (f : host W → list jsval → async jsval)
    (path : string) (others : list jsval) (this : host W) (args : list jsval)
    (w w1 : W) (r accessToken : jsval) :
  exports postJSON !! name = Some (AsyncFn f) →
  f this args = gated this path others →
  ensureAccessToken this w = (Fulfilled r, w1) →
  get_property r "accessToken" = Some accessToken →
  invoke postJSON name this args w =
    Some (let req := (prefix this .+ JStr path .+ accessToken) :: others in
          ((request this req w1).1, (request this req w1).2,
           [EnsureAccessToken; Request req])).
Proof.
  intros Hex Hf Hens Htok. unfold invoke. rewrite Hex. simpl.
  rewrite Hf, run_gated, Hens, Htok. reflexivity.
Qed.

End Invoke.

(** C1. For each token-gated operation, on a host whose prefix is the
    string [p] and whose accessor resolves to an object with the token
    string [t], the call makes one request and its URL is [p], the path of
    the operation, [?access_token=] and [t].  (Neither string needs to be
    non-empty.) *)
Theorem token_gated_url (postJSON : jsval → jsval) {W : Type}
    (this : host W) (name path : string) (args : list jsval) (w w1 : W)
    (p t : string) (r : jsval) :
  In (name, path) gated_paths →
  prefix this = JStr p →
  ensureAccessToken this w = (Fulfilled r, w1) →
  get_property r "accessToken" = Some (JStr t) →
  ∃ options,
    invoke postJSON name this args w =
      Some (let req := JStr (p +:+ path +:+ "?access_token=" +:+ t) :: options in
            ((request this req w1).1, (request this req w1).2,
             [EnsureAccessToken; Request req])).
Proof.
  intros Hin Hp Hens Htok.
  unfold gated_paths in Hin. simpl in Hin.
  repeat (destruct Hin as [Hin|Hin];
    [injection Hin as <- <-; eexists;
     erewrite invoke_gated;
       [|reflexivity|reflexivity|exact Hens|exact Htok];
     rewrite Hp;
     match goal with
     | |- context [JStr p .+ JStr ?s .+ JStr t] =>
         change (JStr p .+ JStr s .+ JStr t)
           with (JStr ((p +:+ s) +:+ t))
     end;
     rewrite StrFacts.app_assoc; reflexivity|]).
  destruct Hin.
Qed.

(** The statement at [createUser] on the sample host. *)
Lemma token_gated_url_witness :
  ∃ options,
    invoke util.postJSON "createUser" sample_host
      [JObj [("userid", JStr "zhangsan")]] 0 =
      Some (let req :=
              JStr ("https://qyapi.weixin.qq.com/cgi-bin/" +:+ "user/create"
                    +:+ "?access_token=" +:+ "TOKEN") :: options in
            ((request sample_host req 1).1, (request sample_host req 1).2,
             [EnsureAccessToken; Request req])).
Proof.
  apply (token_gated_url util.postJSON sample_host "createUser" "user/create"
           [JObj [("userid", JStr "zhangsan")]] 0 1
           "https://qyapi.weixin.qq.com/cgi-bin/" "TOKEN"
           (JObj [("accessToken", JStr "TOKEN")])).
  - simpl. tauto.
  - reflexivity.
  - reflexivity.
  - reflexivity.
Defined.

(** C2. Every asynchronous function the file assigns to [exports] (the ten
    gated ones, the shadowed [deleteUser] among them), and so every one that
    [exports] holds: when the accessor rejects with [e], the call rejects
    with [e], and its log holds no request, only the call of the accessor. *)
Theorem accessor_rejection_propagates (postJSON : jsval → jsval) {W : Type}
    (this : host W) (name : string) (f : host W → list jsval → async jsval)
    (args : list jsval) (w w1 : W) (e : error) :
  In (name, AsyncFn f) (assignments postJSON)
  ∨ exports postJSON !! name = Some (AsyncFn f) →
  ensureAccessToken this w = (Rejected e, w1) →
  ∃ log,
    run this (f this args) w = (Rejected e, w1, log) ∧
    log = [EnsureAccessToken] ∧ requests log = [].
Proof.
  intros Hin Hens.
  assert (In (name, AsyncFn f) (assignments postJSON)) as Hin'.
  { destruct Hin as [Hin|Hex]; [done|by apply exports_assigned]. }
  destruct (assigned_async_gated postJSON name f Hin') as (path & others & Hf).
  exists [EnsureAccessToken]. split; [|done].
  by rewrite Hf, run_gated, Hens.
Qed.

(** The statement at the exported [getUser] on the host whose token has
    expired. *)
Lemma accessor_rejection_propagates_witness :
  ∃ log,
    run expired_host (getUser expired_host [JStr "zhangsan"]) 0 =
      (Rejected (Thrown (JStr "token expired")), 1, log) ∧
    log = [EnsureAccessToken] ∧ requests log = [].
Proof.
  apply (accessor_rejection_propagates util.postJSON expired_host "getUser"
           getUser [JStr "zhangsan"] 0 1 (Thrown (JStr "token expired"))).
  - right. reflexivity.
  - reflexivity.
Defined.

(** C7. [getCallbackIp] on a host with the prefix [p] and the resolved token
    [t]: the log holds one request, its only argument is the URL (no
    options), and the call settles exactly as that request settles. *)
Theorem getCallbackIp_single_request (postJSON : jsval → jsval) {W : Type}
    (this : host W) (args : list jsval) (w w1 : W) (p t : string) (r : jsval) :
  prefix this = JStr p →
  ensureAccessToken this w = (Fulfilled r, w1) →
  get_property r "accessToken" = Some (JStr t) →
  let url := JStr (p +:+ "getcallbackip?access_token=" +:+ t) in
  ∃ log,
    invoke postJSON "getCallbackIp" this args w =
      Some ((request this [url] w1).1, (request this [url] w1).2, log) ∧
    requests log = [[url]].
Proof.
  intros Hp Hens Htok url. eexists. split.
  - erewrite invoke_gated; [|reflexivity|reflexivity|exact Hens|exact Htok].
    rewrite Hp.
    change (JStr p .+ JStr "getcallbackip?access_token=" .+ JStr t)
      with (JStr ((p +:+ "getcallbackip?access_token=") +:+ t)).
    rewrite StrFacts.app_assoc. reflexivity.
  - reflexivity.
Qed.

Lemma getCallbackIp_single_request_witness :
  let url :=
    JStr ("https://qyapi.weixin.qq.com/cgi-bin/"
          +:+ "getcallbackip?access_token=" +:+ "TOKEN") in
  ∃ log,
    invoke util.postJSON "getCallbackIp" sample_host [] 0 =
      Some ((request sample_host [url] 1).1, (request sample_host [url] 1).2,
            log) ∧
    requests log = [[url]].
Proof.
  apply (getCallbackIp_single_request util.postJSON sample_host [] 0 1
           "https://qyapi.weixin.qq.com/cgi-bin/" "TOKEN"
           (JObj [("accessToken", JStr "TOKEN")])); reflexivity.
Defined.

(** C5. The functions with scalar parameters, on a host whose accessor
    resolves to the token [accessToken]: the one request carries the options
    [{data: {userid: id}}] for [getUser] and the single-member [deleteUser],
    and [{data: {department_id: departmentId, fetch_child: fetchChild}}] for
    the two department listings, where the parameters are the arguments of
    the call as they are ([undefined] when left out). *)
Theorem scalar_parameters_forwarded {W : Type} (this : host W)
    (args : list jsval) (w w1 : W) (r accessToken : jsval) :
  ensureAccessToken this w = (Fulfilled r, w1) →
  get_property r "accessToken" = Some accessToken →
  let by_id := JObj [("data", JObj [("userid", arg 0 args)])] in
  let by_department :=
    JObj [("data", JObj [("department_id", arg 0 args);
                         ("fetch_child", arg 1 args)])] in
  requests (run this (getUser this args) w).2 =
    [[prefix this .+ JStr "user/get?access_token=" .+ accessToken; by_id]] ∧
  requests (run this (deleteUser_single this args) w).2 =
    [[prefix this .+ JStr "user/delete?access_token=" .+ accessToken; by_id]] ∧
  requests (run this (getDepartmentUsers this args) w).2 =
    [[prefix this .+ JStr "user/simplelist?access_token=" .+ accessToken;
      by_department]] ∧
  requests (run this (getDepartmentUsersDetail this args) w).2 =
    [[prefix this .+ JStr "user/list?access_token=" .+ accessToken;
      by_department]].
Proof.
  intros Hens Htok by_id by_department.
  split; [|split; [|split]].
  - exact (requests_gated this "user/get?access_token=" [by_id]
             w w1 r accessToken Hens Htok).
  - exact (requests_gated this "user/delete?access_token=" [by_id]
             w w1 r accessToken Hens Htok).
  - exact (requests_gated this "user/simplelist?access_token="
             [by_department] w w1 r accessToken Hens Htok).
  - exact (requests_gated this "user/list?access_token=" [by_department]
             w w1 r accessToken Hens Htok).
Qed.

(** The statement on the sample host, for the id 7 (of a member, or of a
    department listed with its children). *)
Lemma scalar_parameters_forwarded_witness :
  let args := [JNum 7; JNum 1] in
  let by_id := JObj [("data", JObj [("userid", JNum 7)])] in
  let by_department :=
    JObj [("data", JObj [("department_id", JNum 7);
                         ("fetch_child", JNum 1)])] in
  requests (run sample_host (getUser sample_host args) 0).2 =
    [[prefix sample_host .+ JStr "user/get?access_token=" .+ JStr "TOKEN";
      by_id]] ∧
  requests (run sample_host (deleteUser_single sample_host args) 0).2 =
    [[prefix sample_host .+ JStr "user/delete?access_token=" .+ JStr "TOKEN";
      by_id]] ∧
  requests (run sample_host (getDepartmentUsers sample_host args) 0).2 =
    [[prefix sample_host .+ JStr "user/simplelist?access_token="
        .+ JStr "TOKEN"; by_department]] ∧
  requests (run sample_host (getDepartmentUsersDetail sample_host args) 0).2 =
    [[prefix sample_host .+ JStr "user/list?access_token=" .+ JStr "TOKEN";
      by_department]].
Proof.
  apply (scalar_parameters_forwarded sample_host [JNum 7; JNum 1]
           0 1 (JObj [("accessToken", JStr "TOKEN")]) (JStr "TOKEN"));
    reflexivity.
Defined.

(** C8. [getUserIdByCode] on a host whose accessor resolves to the token
    [accessToken] sends one request, to the [user/getuserinfo] URL, with the
    options [{data: {code: code, agentid: this.agentid}}]; and no other
    function assigned in the file reads [agentid]: called on a host that
    differs in that field only, it does the same. *)
Theorem getUserIdByCode_uses_agentid (postJSON : jsval → jsval) {W : Type}
    (this : host W) (args : list jsval) (w w1 : W) (r accessToken : jsval) :
  ensureAccessToken this w = (Fulfilled r, w1) →
  get_property r "accessToken" = Some accessToken →
  let url :=
    prefix this .+ JStr "user/getuserinfo?access_token=" .+ accessToken in
  let options :=
    JObj [("data", JObj [("code", arg 0 args); ("agentid", agentid this)])] in
  (∃ out w2,
     invoke postJSON "getUserIdByCode" this args w =
       Some (out, w2, [EnsureAccessToken; Request [url; options]])) ∧
  (∀ name fn a,
     In (name, fn) (assignments postJSON) →
     name ≠ "getUserIdByCode" →
     call_exported fn (with_agentid a this) args w =
     call_exported fn this args w).
Proof.
  intros Hens Htok url options. split.
  - eexists _, _.
    erewrite invoke_gated; [|reflexivity|reflexivity|exact Hens|exact Htok].
    reflexivity.
  - intros name fn a Hin Hne. unfold assignments in Hin. simpl in Hin.
    repeat (destruct Hin as [Hin|Hin];
      [injection Hin as <- <-;
       first [ exfalso; apply Hne; reflexivity
             | unfold call_exported; rewrite ?run_with_agentid; reflexivity ]
      |]).
    destruct Hin.
Qed.

Lemma getUserIdByCode_uses_agentid_witness :
  let url :=
    prefix sample_host .+ JStr "user/getuserinfo?access_token="
      .+ JStr "TOKEN" in
  let options :=
    JObj [("data", JObj [("code", JStr "CODE");
                         ("agentid", agentid sample_host)])] in
  (∃ out w2,
     invoke util.postJSON "getUserIdByCode" sample_host [JStr "CODE"] 0 =
       Some (out, w2, [EnsureAccessToken; Request [url; options]])) ∧
  (∀ name fn a,
     In (name, fn) (assignments util.postJSON) →
     name ≠ "getUserIdByCode" →
     call_exported fn (with_agentid a sample_host) [JStr "CODE"] 0 =
     call_exported fn sample_host [JStr "CODE"] 0).
Proof.
  apply (getUserIdByCode_uses_agentid util.postJSON sample_host [JStr "CODE"]
           0 1 (JObj [("accessToken", JStr "TOKEN")]) (JStr "TOKEN"));
    reflexivity.
Defined.

(** C3. The name [deleteUser] of [exports] holds the function defined
    second, the batch delete.  Called on a host whose accessor resolves, it
    sends one request, to the [user/batchdelete] URL, whose options have the
    method POST and the JSON text of [{useridlist: x}] as data.  And however
    the accessor settles, no request it makes has the options
    [{data: {userid: id}}] of the single-member delete. *)
Theorem exported_deleteUser_is_batch {W : Type} (this : host W)
    (args : list jsval) (w w1 : W) (r accessToken : jsval) :
  ensureAccessToken this w = (Fulfilled r, w1) →
  get_property r "accessToken" = Some accessToken →
  let url :=
    prefix this .+ JStr "user/batchdelete?access_token=" .+ accessToken in
  let options :=
    JObj [("method", JStr "POST");
          ("data", JSON.stringify (JObj [("useridlist", arg 0 args)]))] in
  @exports W util.postJSON !! "deleteUser" =
    Some (AsyncFn (deleteUser util.postJSON)) ∧
  (∃ out w2,
     invoke util.postJSON "deleteUser" this args w =
       Some (out, w2, [EnsureAccessToken; Request [url; options]])) ∧
  (∀ (that : host W) args' w' out w2 log req u id,
     invoke util.postJSON "deleteUser" that args' w' = Some (out, w2, log) →
     In req (requests log) →
     req ≠ [u; JObj [("data", JObj [("userid", id)])]]).
Proof.
  intros Hens Htok url options. split; [reflexivity|]. split.
  - eexists _, _.
    erewrite invoke_gated; [|reflexivity|reflexivity|exact Hens|exact Htok].
    reflexivity.
  - intros that args' w' out w2 log req u id Hinv Hin.
    unfold invoke in Hinv.
    change (@exports W util.postJSON !! "deleteUser")
      with (Some (AsyncFn (@deleteUser W util.postJSON))) in Hinv.
    injection Hinv as Hrun.
    change (run that
              (gated that "user/batchdelete?access_token="
                 [util.postJSON (JObj [("useridlist", arg 0 args')])]) w' =
            (out, w2, log)) in Hrun.
    apply (gated_postJSON_not_by_id that "user/batchdelete?access_token="
             (JObj [("useridlist", arg 0 args')]) w').
    rewrite Hrun. exact Hin.
Qed.

Lemma exported_deleteUser_is_batch_witness :
  let args := [JArr [JStr "zhangsan"; JStr "lisi"]] in
  let url :=
    prefix sample_host .+ JStr "user/batchdelete?access_token="
      .+ JStr "TOKEN" in
  let options :=
    JObj [("method", JStr "POST");
          ("data", JSON.stringify (JObj [("useridlist", arg 0 args)]))] in
  @exports nat util.postJSON !! "deleteUser" =
    Some (AsyncFn (deleteUser util.postJSON)) ∧
  (∃ out w2,
     invoke util.postJSON "deleteUser" sample_host args 0 =
       Some (out, w2, [EnsureAccessToken; Request [url; options]])) ∧
  (∀ (that : host nat) args' w' out w2 log req u id,
     invoke util.postJSON "deleteUser" that args' w' = Some (out, w2, log) →
     In req (requests log) →
     req ≠ [u; JObj [("data", JObj [("userid", id)])]]).
Proof.
  apply (exported_deleteUser_is_batch sample_host
           [JArr [JStr "zhangsan"; JStr "lisi"]] 0 1
           (JObj [("accessToken", JStr "TOKEN")]) (JStr "TOKEN"));
    reflexivity.
Defined.

(** ** The authorization URL *)

Module QsFacts.
Import querystring.

Lemma sep_after_extends (fields : string) :
  ∃ t, sep_after fields = fields +:+ t.
Proof.
  destruct fields as [|c s].
  - by exists "".
  - by exists "&".
Qed.

Lemma array_fields_extends (ks : string) (vs : list jsval) (j : nat)
    (fields : string) :
  ∃ t, array_fields ks j vs fields = fields +:+ t.
Proof.
  revert j fields. induction vs as [|v vs IH]; intros j fields; simpl.
  - exists "". by rewrite StrFacts.app_nil_r.
  - destruct (IH (S j)
                (((if Nat.eqb j 0 then fields else fields +:+ "&")
                  +:+ ks +:+ encodeStringified v))) as [t ->].
    destruct (Nat.eqb j 0); eexists; rewrite !StrFacts.app_assoc; reflexivity.
Qed.

Lemma fields_from_cons (k : string) (v : jsval)
    (rest : list (string * jsval)) (fields : string) :
  fields_from ((k, v) :: rest) fields = fields_from rest (fields_from [(k, v)] fields).
Proof. destruct v as [| | | | |[|x l]|]; reflexivity. Qed.

Lemma fields_from_one_extends (k : string) (v : jsval) (fields : string) :
  ∃ t, fields_from [(k, v)] fields = fields +:+ t.
Proof.
  destruct (sep_after_extends fields) as [s Hs].
  assert (∃ t, sep_after fields +:+ (escape k +:+ "=") +:+ encodeStringified v
               = fields +:+ t) as Hscalar.
  { rewrite Hs. eexists. rewrite !StrFacts.app_assoc. reflexivity. }
  destruct v as [| | | | |[|x l]|]; try exact Hscalar.
  - exists "". by rewrite StrFacts.app_nil_r.
  - cbn [fields_from].
    destruct (array_fields_extends (escape k +:+ "=") (x :: l) 0
                (sep_after fields)) as [t ->].
    rewrite Hs. eexists. rewrite !StrFacts.app_assoc. reflexivity.
Qed.

Lemma fields_from_extends (props : list (string * jsval)) (fields : string) :
  ∃ t, fields_from props fields = fields +:+ t.
Proof.
  revert fields. induction props as [|[k v] props IH]; intros fields.
  - exists "". simpl. by rewrite StrFacts.app_nil_r.
  - rewrite fields_from_cons.
    destruct (fields_from_one_extends k v fields) as [t1 ->].
    destruct (IH (fields +:+ t1)) as [t2 ->].
    eexists. rewrite StrFacts.app_assoc. reflexivity.
Qed.

Lemma app_nonempty_l (a b : string) : a ≠ "" → a +:+ b ≠ "".
Proof. by destruct a. Qed.

Lemma app_nonempty_r (a b : string) : b ≠ "" → a +:+ b ≠ "".
Proof. destruct a; [done|]. discriminate. Qed.

Lemma sep_after_ne (fields : string) :
  fields ≠ "" → sep_after fields = fields +:+ "&".
Proof. by destruct fields. Qed.

(** A key whose value is not an array adds one field. *)
Lemma fields_from_scalar (k : string) (v : jsval) (fields : string) :
  is_array v = false →
  fields_from [(k, v)] fields =
  sep_after fields +:+ (escape k +:+ "=") +:+ encodeStringified v.
Proof. intros Hv. destruct v; try reflexivity. discriminate Hv. Qed.

End QsFacts.

Section Authorize.
Context {W : Type}.
Import querystring.

Lemma getAuthorizeURL_eq (this : host W) (args : list jsval) :
  getAuthorizeURL this args =
  JStr ("https://open.weixin.qq.com/connect/oauth2/authorize?"
        +:+ stringify (authorize_info this (arg 0 args) (arg 1 args)
                         (arg 2 args))
        +:+ "#wechat_redirect").
Proof.
  reflexivity.
Qed.

Lemma stringify_authorize_info (this : host W) (redirect state scope : jsval) :
  stringify (authorize_info this redirect state scope) =
  fields_from [("scope", js_or scope (JStr "snsapi_base"));
               ("state", js_or state (JStr ""))]
    (authorize_head this redirect +:+ "response_type=code").
Proof.
  unfold stringify, authorize_info, authorize_head.
  rewrite QsFacts.fields_from_cons.
  rewrite (QsFacts.fields_from_cons "redirect_uri").
  rewrite (QsFacts.fields_from_cons "appid" _ [_]).
  reflexivity.
Qed.


Lemma stringify_authorize_scalars (this : host W)
    (redirect state scope : jsval) :
  is_array redirect = false →
  is_array (js_or scope (JStr "snsapi_base")) = false →
  is_array (js_or state (JStr "")) = false →
  stringify (authorize_info this redirect state scope) =
  sep_after (fields_from [("appid", corpid this)] "")
  +:+ "redirect_uri=" +:+ encodeStringified redirect
  +:+ "&response_type=code&scope="
  +:+ encodeStringified (js_or scope (JStr "snsapi_base"))
  +:+ "&state=" +:+ encodeStringified (js_or state (JStr "")).
Proof.
  intros Hr Hsc Hst.
  unfold stringify, authorize_info.
  rewrite QsFacts.fields_from_cons.
  set (F1 := fields_from [("appid", corpid this)] "").
  rewrite QsFacts.fields_from_cons, (QsFacts.fields_from_scalar _ _ _ Hr).
  rewrite QsFacts.fields_from_cons,
    (QsFacts.fields_from_scalar "response_type" (JStr "code")) by done.
  rewrite QsFacts.fields_from_cons, (QsFacts.fields_from_scalar _ _ _ Hsc).
  rewrite (QsFacts.fields_from_scalar _ _ _ Hst).
  set (S1 := sep_after F1).
  rewrite !QsFacts.sep_after_ne;
    try (apply QsFacts.app_nonempty_r, QsFacts.app_nonempty_l; cbn;
         discriminate).
  rewrite !StrFacts.app_assoc. reflexivity.
Qed.

(** Whatever the arguments, the query string has the field
    [response_type=code]. *)
Lemma stringify_authorize_response_type (this : host W)
    (redirect state scope : jsval) :
  ∃ t,
    stringify (authorize_info this redirect state scope) =
    authorize_head this redirect +:+ "response_type=code" +:+ t.
Proof.
  rewrite stringify_authorize_info.
  destruct (QsFacts.fields_from_extends
              [("scope", js_or scope (JStr "snsapi_base"));
               ("state", js_or state (JStr ""))]
              (authorize_head this redirect +:+ "response_type=code"))
    as [t ->].
  exists t. by rewrite StrFacts.app_assoc.
Qed.

(** With a falsy [state], it ends with an empty [state] field. *)
Lemma stringify_authorize_falsy_state (this : host W)
    (redirect state scope : jsval) :
  truthy state = false →
  ∃ pre,
    stringify (authorize_info this redirect state scope) =
    pre +:+ "&state=".
Proof.
  intros Hst. rewrite stringify_authorize_info.
  unfold js_or at 2. rewrite Hst.
  rewrite QsFacts.fields_from_cons.
  destruct (QsFacts.fields_from_extends
              [("scope", js_or scope (JStr "snsapi_base"))]
              (authorize_head this redirect +:+ "response_type=code"))
    as [t ->].
  rewrite QsFacts.fields_from_scalar by done.
  rewrite QsFacts.sep_after_ne
    by (apply QsFacts.app_nonempty_l, QsFacts.app_nonempty_r; discriminate).
  exists ((authorize_head this redirect +:+ "response_type=code") +:+ t).
  rewrite StrFacts.app_assoc. reflexivity.
Qed.

(** With a falsy [scope], the function sees the default. *)
Lemma getAuthorizeURL_falsy_scope (this : host W)
    (redirect state scope : jsval) :
  truthy scope = false →
  getAuthorizeURL this [redirect; state; scope] =
  getAuthorizeURL this [redirect; state; JStr "snsapi_base"].
Proof.
  intros Hsc. unfold getAuthorizeURL, authorize_info, js_or. cbn [arg nth].
  rewrite Hsc. reflexivity.
Qed.

End Authorize.

Lemma includes_app_r (a s pat : string) :
  Str.includes s pat = true → Str.includes (a +:+ s) pat = true.
Proof.
  intros H. induction a as [|c a IH]; [exact H|].
  simpl. rewrite IH. apply orb_true_r.
Qed.

Lemma endsWith_app_r (a s suffix : string) :
  Str.endsWith s suffix = true → Str.endsWith (a +:+ s) suffix = true.
Proof.
  intros H. induction a as [|c a IH]; [exact H|].
  simpl. rewrite IH. apply orb_true_r.
Qed.

(** C9. [getAuthorizeURL] calls neither collaborator and leaves the world
    as it is: called through [exports] it returns, with an empty log, the
    string made of the fixed address, the query string of [appid] (the
    configured [corpid]), [redirect_uri], [response_type] (always [code]),
    [scope] and [state], and [#wechat_redirect].  Hosts with the same
    [corpid] get the same URL, whatever their other fields, collaborators
    and world; and the URL always has the field [response_type=code]. *)
Theorem getAuthorizeURL_pure (postJSON : jsval → jsval) {W : Type}
    (this : host W) (args : list jsval) (w : W) :
  invoke postJSON "getAuthorizeURL" this args w =
    Some (Fulfilled
            (JStr ("https://open.weixin.qq.com/connect/oauth2/authorize?"
                   +:+ querystring.stringify
                         [("appid", corpid this);
                          ("redirect_uri", arg 0 args);
                          ("response_type", JStr "code");
                          ("scope", js_or (arg 2 args) (JStr "snsapi_base"));
                          ("state", js_or (arg 1 args) (JStr ""))]
                   +:+ "#wechat_redirect")),
          w, []) ∧
  (∀ (W' : Type) (that : host W'),
     corpid that = corpid this →
     getAuthorizeURL that args = getAuthorizeURL this args) ∧
  ∃ url,
    getAuthorizeURL this args = JStr url ∧
    Str.includes url "response_type=code" = true.
Proof.
  split; [reflexivity|]. split.
  - intros W' that Hc. unfold getAuthorizeURL, authorize_info.
    by rewrite Hc.
  - rewrite getAuthorizeURL_eq. eexists. split; [reflexivity|].
    destruct (stringify_authorize_response_type this (arg 0 args)
                (arg 1 args) (arg 2 args)) as [t ->].
    match goal with
    | |- Str.includes ?u _ = true =>
        replace u with
          (("https://open.weixin.qq.com/connect/oauth2/authorize?"
            +:+ authorize_head this (arg 0 args))
           +:+ "response_type=code" +:+ (t +:+ "#wechat_redirect"))
          by (rewrite !StrFacts.app_assoc; reflexivity)
    end.
    apply StrFacts.includes_intro.
Qed.

(** ** Where an equals sign can stand in the query string *)

Module Tame.
Import querystring.

Lemma prefix_cons (a b : ascii) (p s : string) :
  String.prefix (String a p) (String b s) = Ascii.eqb a b && String.prefix p s.
Proof.
  cbn [String.prefix]. destruct (ascii_dec a b) as [->|H].
  - by rewrite Ascii.eqb_refl.
  - apply Ascii.eqb_neq in H. by rewrite H.
Qed.

Lemma prefix_e_eq (c : ascii) (s : string) :
  String.prefix "e=" (String c s) = Ascii.eqb c "e" && eq_head s.
Proof.
  rewrite prefix_cons, (Ascii.eqb_sym "e" c). f_equal.
  destruct s as [|d s]; [reflexivity|].
  rewrite prefix_cons, (Ascii.eqb_sym "=" d). cbn [eq_head].
  destruct s; apply andb_true_r.
Qed.

Lemma includes_e_eq_cons (c : ascii) (s : string) :
  Str.includes (String c s) "e=" =
  (Ascii.eqb c "e" && eq_head s) || Str.includes s "e=".
Proof. cbn [Str.includes]. by rewrite prefix_e_eq. Qed.

Lemma eq_head_app (a b : string) :
  eq_head (a +:+ b) = if String.eqb a "" then eq_head b else eq_head a.
Proof. by destruct a. Qed.

Lemma tame_app (a b : string) : tame a → tame b → tame (a +:+ b).
Proof.
  intros [Ha Ha'] [Hb Hb']. split.
  - clear Ha'. induction a as [|c a IH]; [exact Hb|].
    rewrite includes_e_eq_cons in Ha.
    apply orb_false_elim in Ha as [Hc Ha].
    change (String c a +:+ b) with (String c (a +:+ b)).
    rewrite includes_e_eq_cons, (IH Ha), orb_false_r.
    rewrite eq_head_app. destruct a; [|exact Hc].
    simpl. rewrite Hb'. apply andb_false_r.
  - rewrite eq_head_app. by destruct a.
Qed.

Lemma eq_free_tame (s : string) : eq_free s = true → tame s.
Proof.
  intros H. split.
  - induction s as [|c s IH]; [reflexivity|].
    simpl in H. apply andb_prop in H as [Hc Hs].
    rewrite includes_e_eq_cons, (IH Hs), orb_false_r.
    destruct s as [|d s]; [apply andb_false_r|].
    simpl in Hs. apply andb_prop in Hs as [Hd _].
    cbn [eq_head]. apply negb_true_iff in Hd. rewrite Hd. apply andb_false_r.
  - destruct s as [|c s]; [reflexivity|].
    simpl in H. apply andb_prop in H as [Hc _].
    by apply negb_true_iff in Hc.
Qed.

Lemma eq_free_app (a b : string) :
  eq_free (a +:+ b) = eq_free a && eq_free b.
Proof. induction a as [|c a IH]; simpl; [done|]. by rewrite IH, andb_assoc. Qed.

Lemma eq_free_escape (s : string) : eq_free (escape s) = true.
Proof.
  induction s as [|c s IH]; [reflexivity|].
  cbn [escape]. rewrite eq_free_app, IH, andb_true_r.
  destruct c as [[] [] [] [] [] [] [] []]; vm_compute; reflexivity.
Qed.

End Tame.

(** ** Printing and reading numbers *)

Module NumberFacts.
Import Number.

Lemma digit_cases (m : N) :
  (m < 10)%N →
  m = 0%N ∨ m = 1%N ∨ m = 2%N ∨ m = 3%N ∨ m = 4%N ∨ m = 5%N ∨ m = 6%N
  ∨ m = 7%N ∨ m = 8%N ∨ m = 9%N.
Proof. lia. Qed.

Lemma digit_is_digit (m : N) : (m < 10)%N → JSON.is_digit (digit m) = true.
Proof.
  intros H. destruct (digit_cases m H) as [->|[->|[->|[->|[->|[->|[->|[->|[->| ->]]]]]]]]];
    reflexivity.
Qed.

Lemma digit_value (m : N) : (m < 10)%N → (N_of_ascii (digit m) - 48 = m)%N.
Proof.
  intros H. destruct (digit_cases m H) as [->|[->|[->|[->|[->|[->|[->|[->|[->| ->]]]]]]]]];
    reflexivity.
Qed.

Lemma all_digits_app (a b : string) :
  all_digits (a +:+ b) = all_digits a && all_digits b.
Proof. induction a as [|c a IH]; simpl; [done|]. by rewrite IH, andb_assoc. Qed.

Lemma digits_value_app (a b : string) (acc : N) :
  JSON.digits_value (a +:+ b) acc = JSON.digits_value b (JSON.digits_value a acc).
Proof. revert acc. induction a as [|c a IH]; intros acc; simpl; auto. Qed.

Lemma digits_S (f : nat) (n : N) (acc : string) :
  digits (S f) n acc =
  if (n / 10 =? 0)%N then String (digit (n mod 10)) acc
  else digits f (n / 10) (String (digit (n mod 10)) acc).
Proof. reflexivity. Qed.

(** What [digits] puts in front of [acc]: the decimal numeral of [n]. *)
Lemma digits_spec (f : nat) (n : N) (acc : string) :
  (n < 2 ^ N.of_nat (S f))%N →
  ∃ ds,
    digits (S f) n acc = ds +:+ acc ∧
    all_digits ds = true ∧
    ds ≠ "" ∧
    (∀ a, JSON.digits_value ds a = a * 10 ^ N.of_nat (String.length ds) + n)%N ∧
    (Str.head ds = Some "0"%char → ds = "0").
Proof.
  revert n acc. induction f as [|f IH]; intros n acc Hn.
  - assert (n / 10 = 0)%N as Hq by (apply N.div_small; simpl in Hn; lia).
    assert (n mod 10 = n)%N as Hm by (apply N.mod_small; simpl in Hn; lia).
    rewrite digits_S, Hq, Hm. cbn [N.eqb].
    exists (String (digit n) ""). simpl in Hn.
    assert (n < 10)%N as Hlt by lia.
    repeat split.
    + simpl. by rewrite digit_is_digit.
    + discriminate.
    + intros a. simpl. rewrite digit_value by done. lia.
    + simpl. intros [= Hz]. by rewrite Hz.
  - rewrite digits_S. destruct (n / 10 =? 0)%N eqn:Hq.
    + apply N.eqb_eq in Hq.
      assert (n < 10)%N as Hlt.
      { destruct (N.lt_ge_cases n 10) as [|Hge]; [done|].
        pose proof (N.Div0.div_le_mono _ _ 10 Hge) as Hd.
        rewrite N.div_same in Hd by lia. lia. }
      rewrite (N.mod_small n 10) by done.
      exists (String (digit n) "").
      repeat split.
      * simpl. by rewrite digit_is_digit.
      * discriminate.
      * intros a. simpl. rewrite digit_value by done. lia.
      * simpl. intros [= Hz]. by rewrite Hz.
    + apply N.eqb_neq in Hq.
      assert (n / 10 < 2 ^ N.of_nat (S f))%N as Hn'.
      { apply N.Div0.div_lt_upper_bound.
        rewrite (Nat2N.inj_succ (S f)), N.pow_succ_r' in Hn. lia. }
      destruct (IH (n / 10)%N (String (digit (n mod 10)) acc) Hn')
        as (ds & Hds & Hall & Hne & Hval & Hhead).
      assert (n mod 10 < 10)%N as Hm by (apply N.mod_lt; lia).
      exists (ds +:+ String (digit (n mod 10)) "").
      repeat split.
      * rewrite Hds, StrFacts.app_assoc. reflexivity.
      * rewrite all_digits_app, Hall. simpl. by rewrite digit_is_digit.
      * destruct ds; [done|discriminate].
      * intros a. rewrite digits_value_app, Hval. simpl.
        rewrite digit_value by done.
        rewrite StrFacts.app_length. simpl.
        rewrite Nat.add_1_r, Nat2N.inj_succ, N.pow_succ_r'.
        pose proof (N.div_mod n 10 ltac:(lia)). lia.
      * intros Hh. exfalso.
        assert (Str.head ds = Some "0"%char) as Hh' by (by destruct ds).
        specialize (Hhead Hh'). subst ds.
        specialize (Hval 0%N). simpl in Hval. lia.
Qed.

Lemma N_toString_spec (n : N) :
  all_digits (N_toString n) = true ∧
  N_toString n ≠ "" ∧
  JSON.digits_value (N_toString n) 0 = n ∧
  (Str.head (N_toString n) = Some "0"%char → N_toString n = "0").
Proof.
  assert (n < 2 ^ N.of_nat (S (N.to_nat (N.log2 n))))%N as Hn.
  { rewrite Nat2N.inj_succ, N2Nat.id.
    destruct n as [|p]; [reflexivity|].
    apply N.log2_spec. lia. }
  destruct (digits_spec _ n "" Hn) as (ds & Hds & Hall & Hne & Hval & Hhead).
  unfold N_toString. rewrite Hds, StrFacts.app_nil_r.
  repeat split; try done.
Qed.

End NumberFacts.

Module TameFields.
Import querystring.

Lemma all_digits_eq_free (s : string) : all_digits s = true → eq_free s = true.
Proof.
  induction s as [|c s IH]; [done|]. simpl.
  intros [Hc Hs]%andb_prop. rewrite (IH Hs), andb_true_r.
  destruct (Ascii.eqb_spec c "=") as [->|]; [discriminate Hc|done].
Qed.

Lemma eq_free_number (z : Z) : eq_free (Number.toString z) = true.
Proof.
  destruct z as [|p|p]; [reflexivity| |]; cbn [Number.toString].
  - apply all_digits_eq_free, NumberFacts.N_toString_spec.
  - rewrite Tame.eq_free_app. simpl.
    apply all_digits_eq_free, NumberFacts.N_toString_spec.
Qed.

Lemma tame_encodeStringified (v : jsval) : tame (encodeStringified v).
Proof.
  apply Tame.eq_free_tame.
  destruct v as [| |[]| | | |]; try reflexivity.
  - apply eq_free_number.
  - apply Tame.eq_free_escape.
Qed.

Lemma tame_array_fields (vs : list jsval) (j : nat) (fields : string) :
  tame fields → tame (array_fields "appid=" j vs fields).
Proof.
  revert j fields. induction vs as [|v vs IH]; intros j fields Hf; [done|].
  cbn [array_fields]. apply IH.
  apply Tame.tame_app; [|apply Tame.tame_app].
  - destruct (Nat.eqb j 0); [done|]. by apply Tame.tame_app.
  - done.
  - apply tame_encodeStringified.
Qed.

Lemma tame_sep_after (fields : string) : tame fields → tame (sep_after fields).
Proof.
  intros Hf. destruct fields as [|c s]; [done|].
  by apply (Tame.tame_app (String c s) "&").
Qed.

(** The [appid] fields, whatever the configured [corpid] is. *)
Lemma tame_appid (corpid : jsval) :
  tame (sep_after (fields_from [("appid", corpid)] "")).
Proof.
  apply tame_sep_after.
  assert (tame (escape "appid" +:+ "=")) as Hk by done.
  destruct corpid as [| |b| | |[|v vs]|];
    try (apply (Tame.tame_app ""); [done|];
         apply Tame.tame_app; [exact Hk|apply tame_encodeStringified]).
  - done.
  - cbn [fields_from]. by apply tame_array_fields.
Qed.

End TameFields.

(** ** The example of the spec *)

Lemma example_default {W : Type} (this : host W) :
  getAuthorizeURL this [JStr "https://cb.example"; JStr "s1"] =
  JStr ((authorize_base +:+ appid_fields this) +:+ default_tail).
Proof.
  rewrite getAuthorizeURL_eq. cbn [arg nth].
  rewrite stringify_authorize_scalars by reflexivity.
  f_equal. rewrite !StrFacts.app_assoc. reflexivity.
Qed.

Lemma example_userinfo {W : Type} (this : host W) :
  getAuthorizeURL this
    [JStr "https://cb.example"; JStr "s1"; JStr "snsapi_userinfo"] =
  JStr ((authorize_base +:+ appid_fields this) +:+ userinfo_tail).
Proof.
  rewrite getAuthorizeURL_eq. cbn [arg nth].
  rewrite stringify_authorize_scalars by reflexivity.
  f_equal. rewrite !StrFacts.app_assoc. reflexivity.
Qed.

(** A text that begins with the default scope field has [e=] among the
    characters that come before [userinfo_tail]. *)
Lemma default_scope_prefix (q : string) :
  String.prefix "scope=snsapi_base" (q +:+ userinfo_tail) = true →
  Str.includes q "e=" = true.
Proof.
  intros H.
  destruct q as [|c1 [|c2 [|c3 [|c4 [|c5 [|c6 q]]]]]];
    cbn [String.append] in H;
    try (rewrite ?Tame.prefix_cons in H;
         repeat (apply andb_prop in H; destruct H as [_ H]);
         vm_compute in H; discriminate H).
  rewrite !Tame.prefix_cons in H.
  repeat (apply andb_prop in H; let E := fresh "E" in destruct H as [E H];
          apply Ascii.eqb_eq in E; subst).
  rewrite !Tame.includes_e_eq_cons. reflexivity.
Qed.

Lemma no_default_scope (p : string) :
  Str.includes p "e=" = false →
  Str.includes (p +:+ userinfo_tail) "scope=snsapi_base" = false.
Proof.
  induction p as [|c p IH]; intros Hp; [by vm_compute|].
  change (String c p +:+ userinfo_tail) with (String c (p +:+ userinfo_tail)).
  cbn [Str.includes].
  rewrite Tame.includes_e_eq_cons in Hp.
  apply orb_false_elim in Hp as [Hc Hp'].
  rewrite (IH Hp'), orb_false_r.
  destruct (String.prefix "scope=snsapi_base" (String c (p +:+ userinfo_tail)))
    eqn:Hpre; [|reflexivity].
  apply (default_scope_prefix (String c p)) in Hpre.
  rewrite Tame.includes_e_eq_cons, Hc, Hp' in Hpre. discriminate Hpre.
Qed.

(** C4. On any host, [getAuthorizeURL("https://cb.example", "s1")] is a
    string that includes [scope=snsapi_base], [state=s1] and
    [redirect_uri=https%3A%2F%2Fcb.example] and ends with
    [#wechat_redirect]; with the scope [snsapi_userinfo] it includes
    [scope=snsapi_userinfo] and does not include [scope=snsapi_base]. *)
Theorem getAuthorizeURL_example {W : Type} (this : host W) :
  ∃ url url',
    getAuthorizeURL this [JStr "https://cb.example"; JStr "s1"] = JStr url ∧
    Str.includes url "scope=snsapi_base" = true ∧
    Str.includes url "state=s1" = true ∧
    Str.includes url "redirect_uri=https%3A%2F%2Fcb.example" = true ∧
    Str.endsWith url "#wechat_redirect" = true ∧
    getAuthorizeURL this
      [JStr "https://cb.example"; JStr "s1"; JStr "snsapi_userinfo"] =
      JStr url' ∧
    Str.includes url' "scope=snsapi_userinfo" = true ∧
    Str.includes url' "scope=snsapi_base" = false.
Proof.
  eexists _, _. split; [apply example_default|].
  split; [by apply includes_app_r|].
  split; [by apply includes_app_r|].
  split; [by apply includes_app_r|].
  split; [by apply endsWith_app_r|].
  split; [apply example_userinfo|].
  split; [by apply includes_app_r|].
  apply no_default_scope.
  apply Tame.tame_app; [done|apply TameFields.tame_appid].
Qed.

Section Defaults.
Context {W : Type}.
Import querystring.

(** With a falsy [scope], the query string has the default scope field. *)
Lemma stringify_authorize_falsy_scope (this : host W)
    (redirect state scope : jsval) :
  truthy scope = false →
  ∃ pre t,
    stringify (authorize_info this redirect state scope) =
    pre +:+ "scope=snsapi_base" +:+ t.
Proof.
  intros Hsc. rewrite stringify_authorize_info.
  unfold js_or at 1. rewrite Hsc.
  rewrite QsFacts.fields_from_cons.
  rewrite (QsFacts.fields_from_scalar "scope") by done.
  rewrite QsFacts.sep_after_ne by (apply QsFacts.app_nonempty_r; discriminate).
  destruct (QsFacts.fields_from_extends [("state", js_or state (JStr ""))]
              (((authorize_head this redirect +:+ "response_type=code")
                +:+ "&") +:+ (escape "scope" +:+ "=")
               +:+ encodeStringified (JStr "snsapi_base"))) as [t ->].
  exists ((authorize_head this redirect +:+ "response_type=code") +:+ "&"), t.
  rewrite !StrFacts.app_assoc. reflexivity.
Qed.

End Defaults.

(** C10. Defaults go by truthiness.  For a falsy [state] (the empty string
    or [undefined] among them) the URL ends with an empty [state] field,
    whatever the scope, and so it does when [state] is left out.  For a
    falsy [scope] (the empty string among them) the URL is the one of the
    scope [snsapi_base], as it is when [scope] is left out, and includes
    [scope=snsapi_base]: an empty scope string cannot be asked for. *)
Theorem getAuthorizeURL_defaults_by_truthiness {W : Type} (this : host W)
    (redirect state scope : jsval) :
  truthy state = false →
  truthy scope = false →
  (∀ scope', ∃ url,
     getAuthorizeURL this [redirect; state; scope'] = JStr url ∧
     Str.endsWith url "&state=#wechat_redirect" = true) ∧
  (∃ url,
     getAuthorizeURL this [redirect] = JStr url ∧
     Str.endsWith url "&state=#wechat_redirect" = true) ∧
  (∀ state',
     getAuthorizeURL this [redirect; state'; scope] =
     getAuthorizeURL this [redirect; state'; JStr "snsapi_base"] ∧
     getAuthorizeURL this [redirect; state'] =
     getAuthorizeURL this [redirect; state'; JStr "snsapi_base"] ∧
     ∃ url,
       getAuthorizeURL this [redirect; state'; scope] = JStr url ∧
       Str.includes url "scope=snsapi_base" = true).
Proof.
  intros Hst Hsc.
  assert (∀ args, truthy (arg 1 args) = false → ∃ url,
            getAuthorizeURL this args = JStr url ∧
            Str.endsWith url "&state=#wechat_redirect" = true) as Hstate.
  { intros args Hf. rewrite getAuthorizeURL_eq. eexists. split; [reflexivity|].
    destruct (stringify_authorize_falsy_state this (arg 0 args) (arg 1 args)
                (arg 2 args) Hf) as [pre ->].
    match goal with
    | |- Str.endsWith ?u _ = true =>
        replace u with
          ((authorize_base +:+ pre) +:+ "&state=#wechat_redirect")
          by (unfold authorize_base; rewrite !StrFacts.app_assoc; reflexivity)
    end.
    apply StrFacts.endsWith_intro. }
  split; [intros scope'; by apply Hstate|].
  split; [by apply Hstate|].
  intros state'. split; [by apply getAuthorizeURL_falsy_scope|].
  split; [reflexivity|].
  rewrite getAuthorizeURL_eq. eexists. split; [reflexivity|].
  destruct (stringify_authorize_falsy_scope this redirect state' scope Hsc)
    as (pre & t & E).
  cbn [arg nth]. rewrite E.
  match goal with
  | |- Str.includes ?u _ = true =>
      replace u with
        ((authorize_base +:+ pre) +:+ "scope=snsapi_base"
         +:+ (t +:+ "#wechat_redirect"))
        by (unfold authorize_base; rewrite !StrFacts.app_assoc; reflexivity)
  end.
  apply StrFacts.includes_intro.
Qed.

Lemma getAuthorizeURL_defaults_by_truthiness_witness :
  (∀ scope', ∃ url,
     getAuthorizeURL sample_host [JStr "https://cb.example"; JStr ""; scope']
       = JStr url ∧
     Str.endsWith url "&state=#wechat_redirect" = true) ∧
  (∃ url,
     getAuthorizeURL sample_host [JStr "https://cb.example"] = JStr url ∧
     Str.endsWith url "&state=#wechat_redirect" = true) ∧
  (∀ state',
     getAuthorizeURL sample_host [JStr "https://cb.example"; state'; JStr ""] =
     getAuthorizeURL sample_host
       [JStr "https://cb.example"; state'; JStr "snsapi_base"] ∧
     getAuthorizeURL sample_host [JStr "https://cb.example"; state'] =
     getAuthorizeURL sample_host
       [JStr "https://cb.example"; state'; JStr "snsapi_base"] ∧
     ∃ url,
       getAuthorizeURL sample_host
         [JStr "https://cb.example"; state'; JStr ""] = JStr url ∧
       Str.includes url "scope=snsapi_base" = true).
Proof.
  apply (getAuthorizeURL_defaults_by_truthiness sample_host
           (JStr "https://cb.example") (JStr "") (JStr "")); reflexivity.
Defined.

(** ** [JSON.parse] reads back what [JSON.stringify] writes *)

Module JSONFacts.
Import JSON.

(** *** Strings *)

Lemma string_body_quote_char (c : ascii) (rest : string) :
  string_body (quote_char c +:+ rest) =
  match string_body rest with
  | Some (body, r) => Some (String c body, r)
  | None => None
  end.
Proof.
  destruct c as [[] [] [] [] [] [] [] []];
    match goal with
    | |- context [quote_char ?c] =>
        let q := eval vm_compute in (quote_char c) in
        change (quote_char c) with q
    end;
    reflexivity.
Qed.

Lemma string_body_quote_chars (s rest : string) :
  string_body (quote_chars s +:+ String "034" rest) = Some (s, rest).
Proof.
  induction s as [|c s IH]; [reflexivity|].
  cbn [quote_chars]. rewrite StrFacts.app_assoc, string_body_quote_char, IH.
  reflexivity.
Qed.

Lemma quote_app (s rest : string) :
  quote s +:+ rest = String "034" (quote_chars s +:+ String "034" rest).
Proof. unfold quote. cbn [String.append]. by rewrite StrFacts.app_assoc. Qed.

(** *** Numbers *)

Lemma delimited_cases (rest : string) :
  delimited rest = true →
  rest = "" ∨ ∃ r, rest = String "," r ∨ rest = String "]" r
                    ∨ rest = String "}" r.
Proof.
  destruct rest as [|c r]; [by left|]. intros H. right. exists r.
  unfold delimited in H.
  apply orb_prop in H as [[H|H]%orb_prop|H]; apply N.eqb_eq in H;
    rewrite <- (ascii_N_embedding c), H; auto.
Qed.

Lemma span_digits_app (ds rest : string) :
  all_digits ds = true → delimited rest = true →
  span_digits (ds +:+ rest) = (ds, rest).
Proof.
  intros Hds Hrest. induction ds as [|c ds IH].
  - destruct (delimited_cases rest Hrest) as [->|(r & [->|[->| ->]])];
      reflexivity.
  - simpl in Hds. apply andb_prop in Hds as [Hc Hds].
    cbn [String.append span_digits]. by rewrite Hc, (IH Hds).
Qed.

Lemma unsigned_number_digits (ds rest : string) :
  all_digits ds = true → ds ≠ "" →
  (Str.head ds = Some "0"%char → ds = "0") →
  delimited rest = true →
  unsigned_number (ds +:+ rest) = Some (digits_value ds 0, rest).
Proof.
  intros Hds Hne Hhead Hrest. unfold unsigned_number.
  rewrite (span_digits_app ds rest Hds Hrest).
  assert (∀ (A : Type) (x : A),
            (let continued :=
               match rest with
               | EmptyString => false
               | String c _ =>
                   let n := N_of_ascii c in
                   (n =? 46)%N || (n =? 101)%N || (n =? 69)%N
               end in
             if continued then None else Some x) = Some x) as Hcont.
  { intros A x.
    destruct (delimited_cases rest Hrest) as [->|(r & [->|[->| ->]])];
      reflexivity. }
  destruct ds as [|c [|d ds]]; [done|exact (Hcont _ _)|].
  destruct (N.eqb_spec (N_of_ascii c) 48) as [Hc|Hc].
  - assert (c = "0"%char) as -> by (by rewrite <- (ascii_N_embedding c), Hc).
    by specialize (Hhead eq_refl).
  - exact (Hcont _ _).
Qed.

Lemma digit_not_minus (c : ascii) :
  is_digit c = true → (N_of_ascii c =? 45)%N = false.
Proof.
  unfold is_digit. intros [H1 H2]%andb_prop.
  apply N.leb_le in H1. apply N.eqb_neq. lia.
Qed.

Lemma parse_number_toString (z : Z) (rest : string) :
  delimited rest = true →
  parse_number (Number.toString z +:+ rest) = Some (z, rest).
Proof.
  intros Hrest.
  assert (∀ p, parse_number (Number.N_toString (Npos p) +:+ rest)
               = Some (Zpos p, rest)) as Hpos.
  { intros p.
    destruct (NumberFacts.N_toString_spec (Npos p))
      as (Hall & Hne & Hval & Hhead).
    pose proof (unsigned_number_digits _ rest Hall Hne Hhead Hrest) as Hu.
    destruct (Number.N_toString (N.pos p)) as [|c ds] eqn:E; [done|].
    cbn [String.append parse_number] in *.
    simpl in Hall. apply andb_prop in Hall as [Hc _].
    by rewrite (digit_not_minus c Hc), Hu, Hval. }
  destruct z as [|p|p]; cbn [Number.toString].
  - change (parse_number ("0" +:+ rest))
      with (match unsigned_number ("0" +:+ rest) with
            | Some (n, rest) => Some (Z.of_N n, rest)
            | None => None
            end).
    by rewrite unsigned_number_digits.
  - apply Hpos.
  - destruct (NumberFacts.N_toString_spec (Npos p))
      as (Hall & Hne & Hval & Hhead).
    change (parse_number (("-" +:+ Number.N_toString (N.pos p)) +:+ rest))
      with (match unsigned_number (Number.N_toString (N.pos p) +:+ rest) with
            | Some (n, rest) => Some ((- Z.of_N n)%Z, rest)
            | None => None
            end).
    rewrite (unsigned_number_digits _ rest Hall Hne Hhead Hrest), Hval.
    reflexivity.
Qed.

(** *** Values *)

Lemma serialize_representable (v : jsval) :
  representable v = true → serialize v = Some (element_text v).
Proof.
  unfold element_text. destruct v as [| |[]| | | |]; try reflexivity.
  discriminate.
Qed.

Lemma value_start_props (c : ascii) (r : string) :
  value_start c = true →
  skip_ws (String c r) = String c r ∧
  Str.strip "]" (String c r) = None ∧
  Str.strip "}" (String c r) = None.
Proof.
  destruct c as [[] [] [] [] [] [] [] []]; intros H;
    try discriminate H; repeat split; reflexivity.
Qed.

Lemma serialize_head (v : jsval) (s : string) :
  serialize v = Some s → ∃ c r, s = String c r ∧ value_start c = true.
Proof.
  destruct v as [| |[]|z|str|l|m]; intros [= <-]; try (by eexists _, _).
  destruct z as [|p|p]; [by eexists _, _| |by eexists _, _].
  cbn [Number.toString].
  destruct (NumberFacts.N_toString_spec (Npos p)) as (Hall & Hne & _).
  destruct (Number.N_toString (N.pos p)) as [|c r]; [done|].
  exists c, r. split; [done|].
  simpl in Hall. apply andb_prop in Hall as [Hc _].
  unfold value_start. by rewrite Hc.
Qed.

Lemma parse_value_number (f : nat) (c : ascii) (r : string) :
  is_digit c = true ∨ c = "-"%char →
  parse_value (S f) (String c r) =
  match parse_number (String c r) with
  | Some (z, r1) => Some (JNum z, r1)
  | None => None
  end.
Proof.
  intros [H| ->]; [|reflexivity].
  destruct c as [[] [] [] [] [] [] [] []]; try discriminate H; reflexivity.
Qed.

Lemma toString_head (z : Z) :
  ∃ c r, Number.toString z = String c r ∧ (is_digit c = true ∨ c = "-"%char).
Proof.
  destruct z as [|p|p]; [by eexists _, _; split; [|left]| |].
  - cbn [Number.toString].
    destruct (NumberFacts.N_toString_spec (Npos p)) as (Hall & Hne & _).
    destruct (Number.N_toString (N.pos p)) as [|c r]; [done|].
    exists c, r. split; [done|]. left.
    simpl in Hall. by apply andb_prop in Hall as [Hc _].
  - eexists _, _. split; [reflexivity|by right].
Qed.

Lemma set_property_fresh (k : string) (v : jsval)
    (acc : list (string * jsval)) :
  existsb (String.eqb k) (map fst acc) = false →
  set_property k v acc = acc ++ [(k, v)].
Proof.
  induction acc as [|[k' v'] acc IH]; [done|]. simpl.
  intros [Hk Hacc]%orb_false_elim. by rewrite Hk, (IH Hacc).
Qed.

Lemma distinct_middle (l1 l2 : list string) (k : string) :
  distinct (l1 ++ k :: l2) = true → existsb (String.eqb k) l1 = false.
Proof.
  induction l1 as [|a l1 IH]; [done|]. simpl.
  intros [Ha Hd]%andb_prop. rewrite (IH Hd), orb_false_r.
  apply negb_true_iff in Ha. rewrite existsb_app in Ha.
  apply orb_false_elim in Ha as [_ Ha]. simpl in Ha.
  apply orb_false_elim in Ha as [Ha _]. by rewrite String.eqb_sym.
Qed.

Lemma parse_value_string (f : nat) (r : string) :
  parse_value (S f) (String "034" r) =
  match string_body r with
  | Some (str, r1) => Some (JStr str, r1)
  | None => None
  end.
Proof. reflexivity. Qed.

Lemma parse_value_array (f : nat) (r : string) :
  parse_value (S f) (String "[" r) =
  match Str.strip "]" (skip_ws r) with
  | Some r1 => Some (JArr [], r1)
  | None => parse_elements f (parse_value f) r []
  end.
Proof. reflexivity. Qed.

Lemma parse_value_object (f : nat) (r : string) :
  parse_value (S f) (String "{" r) =
  match Str.strip "}" (skip_ws r) with
  | Some r1 => Some (JObj [], r1)
  | None => parse_members f (parse_value f) r []
  end.
Proof. reflexivity. Qed.

Lemma join_cons (x : string) (l : list string) :
  l ≠ [] → Str.join "," (x :: l) = x +:+ String "," (Str.join "," l).
Proof. by destruct l. Qed.

Lemma parse_elements_next (fuel : nat) (pv : string → option (jsval * string))
    (s r : string) (x : jsval) (acc : list jsval) :
  pv s = Some (x, String "," r) →
  parse_elements (S fuel) pv s acc = parse_elements fuel pv r (acc ++ [x]).
Proof. intros H. cbn [parse_elements]. by rewrite H. Qed.

Lemma parse_elements_last (fuel : nat) (pv : string → option (jsval * string))
    (s r : string) (x : jsval) (acc : list jsval) :
  pv s = Some (x, String "]" r) →
  parse_elements (S fuel) pv s acc = Some (JArr (acc ++ [x]), r).
Proof. intros H. cbn [parse_elements]. by rewrite H. Qed.

Lemma parse_elements_join (pv : string → option (jsval * string))
    (l : list jsval) (rest : string) :
  Forall (reads_back pv) l → l ≠ [] →
  ∀ fuel acc, length l ≤ fuel →
    parse_elements fuel pv
      (Str.join "," (map element_text l) +:+ String "]" rest) acc =
    Some (JArr (acc ++ l), rest).
Proof.
  intros Hall. induction Hall as [|x l Hx Hl IH]; [done|].
  intros _ fuel acc Hfuel.
  destruct fuel as [|fuel]; [simpl in Hfuel; lia|].
  destruct l as [|y l].
  - cbn [map Str.join]. by apply parse_elements_last, Hx.
  - change (map element_text (x :: y :: l))
      with (element_text x :: map element_text (y :: l)).
    rewrite join_cons, StrFacts.app_assoc by done.
    erewrite parse_elements_next; [|by apply Hx].
    rewrite IH; [|done|simpl in *; lia].
    by rewrite <- List.app_assoc.
Qed.

(** The text of a member, in front of [rest]. *)
Lemma member_text_app (k : string) (x : jsval) (rest : string) :
  member_text (k, x) +:+ rest =
  String "034" (quote_chars k
                +:+ String "034" (String ":" (element_text x +:+ rest))).
Proof.
  unfold member_text. cbn [fst snd].
  by rewrite StrFacts.app_assoc, quote_app, StrFacts.app_assoc.
Qed.

Lemma parse_members_S (fuel : nat) (pv : string → option (jsval * string))
    (k : string) (s : string) (acc : list (string * jsval)) :
  parse_members (S fuel) pv
    (String "034" (quote_chars k +:+ String "034" (String ":" s))) acc =
  match pv s with
  | None => None
  | Some (v, r3) =>
      match skip_ws r3 with
      | EmptyString => None
      | String d r4 =>
          if (N_of_ascii d =? 44)%N then
            parse_members fuel pv r4 (set_property k v acc)
          else if (N_of_ascii d =? 125)%N then
            Some (JObj (set_property k v acc), r4)
          else None
      end
  end.
Proof.
  cbn [parse_members].
  change (skip_ws (String "034" ?a)) with (String "034" a).
  change (N_of_ascii "034" =? 34)%N with true. cbv iota.
  by rewrite string_body_quote_chars.
Qed.

Lemma parse_members_join (pv : string → option (jsval * string))
    (m : list (string * jsval)) (rest : string) :
  Forall (λ kv, reads_back pv kv.2) m → m ≠ [] →
  ∀ fuel acc, length m ≤ fuel →
    distinct (map fst (acc ++ m)) = true →
    parse_members fuel pv
      (Str.join "," (map member_text m) +:+ String "}" rest) acc =
    Some (JObj (acc ++ m), rest).
Proof.
  intros Hall. induction Hall as [|[k x] m Hx Hm IH]; [done|].
  intros _ fuel acc Hfuel Hkeys.
  destruct fuel as [|fuel]; [simpl in Hfuel; lia|].
  assert (set_property k x acc = acc ++ [(k, x)]) as Hset.
  { apply set_property_fresh. rewrite map_app in Hkeys.
    by apply distinct_middle in Hkeys. }
  simpl in Hx.
  destruct m as [|kv m].
  - cbn [map Str.join].
    rewrite member_text_app, parse_members_S, (Hx (String "}" rest)) by done.
    by rewrite Hset.
  - change (map member_text ((k, x) :: kv :: m))
      with (member_text (k, x) :: map member_text (kv :: m)).
    rewrite join_cons, StrFacts.app_assoc by done.
    rewrite member_text_app, parse_members_S.
    change (String "," ?a +:+ ?b) with (String "," (a +:+ b)).
    rewrite (Hx (String "," _)) by done.
    change (skip_ws (String "," ?a)) with (String "," a).
    change (N_of_ascii "," =? 44)%N with true. cbv iota.
    rewrite Hset, IH; [|done|simpl in *; lia|].
    + by rewrite <- List.app_assoc.
    + by rewrite <- List.app_assoc.
Qed.

Lemma size_pos (v : jsval) : 1 ≤ size v.
Proof. destruct v; simpl; lia. Qed.

Lemma join_head (c : ascii) (r : string) (l : list string) :
  ∃ r', Str.join "," (String c r :: l) = String c r'.
Proof. destruct l; by eexists. Qed.

(** The values inside an array or an object are read back by the parser
    that has the fuel of the whole. *)
Lemma Forall_reads_back {A : Type} (g : A → jsval) (l : list A) (f : nat) :
  Forall (λ a, representable (g a) = true →
               ∀ fuel, size (g a) ≤ fuel →
                 reads_back (parse_value fuel) (g a)) l →
  forallb (λ a, representable (g a)) l = true →
  list_sum (map (λ a, size (g a)) l) ≤ f →
  Forall (λ a, reads_back (parse_value f) (g a)) l ∧ length l ≤ f.
Proof.
  intros IH. revert f. induction IH as [|a l Ha Hl IHl]; intros f Hrep Hsum.
  - split; [constructor|simpl; lia].
  - simpl in Hrep, Hsum. apply andb_prop in Hrep as [Hra Hrl].
    pose proof (size_pos (g a)).
    destruct (IHl (f - 1) Hrl ltac:(lia)) as [_ Hlen].
    destruct (IHl f Hrl ltac:(lia)) as [Hall _].
    split; [|simpl; lia].
    constructor; [|done]. apply Ha; [done|lia].
Qed.

Lemma omap_member_text (m : list (string * jsval)) :
  forallb (λ kv, representable kv.2) m = true →
  omap (λ kv, match serialize kv.2 with
              | Some s => Some (quote kv.1 +:+ ":" +:+ s)
              | None => None
              end) m = map member_text m.
Proof.
  induction m as [|[k x] m IH]; [done|].
  cbn [forallb snd]. intros [Hx Hm]%andb_prop.
  specialize (IH Hm). cbn [omap list_omap] in *. cbn [fst snd].
  by rewrite (serialize_representable x Hx), IH.
Qed.

(** The parser, given the fuel of the value, reads back the text of a
    representable value and stops where the text ends. *)
Lemma parse_value_element_text (v : jsval) :
  representable v = true →
  ∀ fuel, size v ≤ fuel → reads_back (parse_value fuel) v.
Proof.
  induction v as [| |b|z|s|l IH|m IH] using jsval_ind;
    intros Hrep fuel Hfuel rest Hrest;
    (destruct fuel as [|f]; [pose proof (size_pos JNull); simpl in Hfuel; lia|]).
  - discriminate.
  - reflexivity.
  - by destruct b.
  - change (element_text (JNum z)) with (Number.toString z).
    destruct (toString_head z) as (c & r & E & Hc).
    pose proof (parse_number_toString z rest Hrest) as Hp.
    rewrite E in *. cbn [String.append] in *.
    by rewrite parse_value_number, Hp.
  - change (element_text (JStr s)) with (quote s).
    by rewrite quote_app, parse_value_string, string_body_quote_chars.
  - change (element_text (JArr l))
      with (String "[" (Str.join "," (map element_text l) +:+ "]")).
    cbn [String.append]. rewrite StrFacts.app_assoc.
    change ("]" +:+ rest) with (String "]" rest).
    rewrite parse_value_array.
    destruct l as [|x l]; [reflexivity|].
    apply le_S_n in Hfuel. cbn [representable] in Hrep.
    destruct (Forall_reads_back id (x :: l) f IH Hrep Hfuel) as [Hall Hlen].
    assert (Str.strip "]"
              (skip_ws (Str.join "," (map element_text (x :: l))
                        +:+ String "]" rest)) = None) as ->.
    { cbn [forallb] in Hrep. apply andb_prop in Hrep as [Hx _].
      destruct (serialize_head x _ (serialize_representable x Hx))
        as (c & r & E & Hc).
      cbn [map]. rewrite E.
      destruct (join_head c r (map element_text l)) as [r' ->].
      cbn [String.append].
      destruct (value_start_props c (r' +:+ String "]" rest) Hc)
        as (-> & -> & _). reflexivity. }
    by apply parse_elements_join.
  - change (element_text (JObj m))
      with (String "{"
              (Str.join ","
                 (omap (λ kv, match serialize kv.2 with
                              | Some s => Some (quote kv.1 +:+ ":" +:+ s)
                              | None => None
                              end) m) +:+ "}")).
    cbn [representable] in Hrep. apply andb_prop in Hrep as [Hkeys Hrep].
    rewrite (omap_member_text m Hrep).
    cbn [String.append]. rewrite StrFacts.app_assoc.
    change ("}" +:+ rest) with (String "}" rest).
    rewrite parse_value_object.
    destruct m as [|[k x] m]; [reflexivity|].
    apply le_S_n in Hfuel.
    destruct (Forall_reads_back snd ((k, x) :: m) f IH Hrep Hfuel)
      as [Hall Hlen].
    assert (Str.strip "}"
              (skip_ws (Str.join "," (map member_text ((k, x) :: m))
                        +:+ String "}" rest)) = None) as ->.
    { destruct m as [|kv m].
      - cbn [map Str.join]. by rewrite member_text_app.
      - change (map member_text ((k, x) :: kv :: m))
          with (member_text (k, x) :: map member_text (kv :: m)).
        rewrite join_cons, StrFacts.app_assoc by done.
        by rewrite member_text_app. }
    by apply parse_members_join.
Qed.

(** *** The fuel of [JSON.parse] is enough *)

Lemma join_length {A : Type} (t : A → string) (n : A → nat) (l : list A) :
  Forall (λ a, n a ≤ String.length (t a)) l →
  list_sum (map n l) ≤ String.length (Str.join "," (map t l)).
Proof.
  induction 1 as [|a l Ha Hl IH]; [done|].
  destruct l as [|b l].
  - simpl in *. lia.
  - change (map t (a :: b :: l)) with (t a :: map t (b :: l)).
    rewrite join_cons, StrFacts.app_length by done.
    cbn [map String.length] in *.
    change (list_sum (n a :: ?r)) with (n a + list_sum r). lia.
Qed.

Lemma Forall_size_le {A : Type} (g : A → jsval) (t : A → string)
    (l : list A) :
  Forall (λ a, representable (g a) = true →
               size (g a) ≤ String.length (element_text (g a))) l →
  forallb (λ a, representable (g a)) l = true →
  (∀ a, String.length (element_text (g a)) ≤ String.length (t a)) →
  Forall (λ a, size (g a) ≤ String.length (t a)) l.
Proof.
  intros IH Hrep Ht. induction IH as [|a l Ha Hl IHl]; [constructor|].
  cbn [forallb] in Hrep. apply andb_prop in Hrep as [Hra Hrl].
  constructor; [|by apply IHl].
  specialize (Ha Hra). specialize (Ht a). lia.
Qed.

Lemma size_le_length (v : jsval) :
  representable v = true → size v ≤ String.length (element_text v).
Proof.
  induction v as [| |b|z|s|l IH|m IH] using jsval_ind; intros Hrep.
  - discriminate.
  - simpl. lia.
  - destruct b; simpl; lia.
  - change (element_text (JNum z)) with (Number.toString z).
    destruct (toString_head z) as (c & r & -> & _). simpl. lia.
  - simpl. lia.
  - change (element_text (JArr l))
      with (String "[" (Str.join "," (map element_text l) +:+ "]")).
    cbn [String.length size representable] in *.
    rewrite StrFacts.app_length.
    pose proof (join_length element_text size l
                  (Forall_size_le id element_text l IH Hrep
                     (λ a, le_n _))).
    lia.
  - change (element_text (JObj m))
      with (String "{"
              (Str.join ","
                 (omap (λ kv, match serialize kv.2 with
                              | Some s => Some (quote kv.1 +:+ ":" +:+ s)
                              | None => None
                              end) m) +:+ "}")).
    cbn [representable] in Hrep. apply andb_prop in Hrep as [Hkeys Hrep].
    rewrite (omap_member_text m Hrep).
    cbn [String.length size]. rewrite StrFacts.app_length.
    assert (∀ kv : string * jsval,
              String.length (element_text kv.2)
              ≤ String.length (member_text kv)) as Ht.
    { intros kv. unfold member_text. rewrite !StrFacts.app_length. lia. }
    pose proof (join_length member_text (λ kv, size kv.2) m
                  (Forall_size_le snd member_text m IH Hrep Ht)).
    lia.
Qed.

End JSONFacts.

(** [JSON.parse] gives back every representable value that
    [JSON.stringify] wrote. *)
Lemma parse_stringify (v : jsval) :
  JSON.representable v = true →
  ∃ text, JSON.stringify v = JStr text ∧ JSON.parse text = Some v.
Proof.
  intros Hrep. exists (element_text v). split.
  - unfold JSON.stringify. by rewrite JSONFacts.serialize_representable.
  - unfold JSON.parse.
    pose proof (JSONFacts.size_le_length v Hrep) as Hsize.
    pose proof (JSONFacts.parse_value_element_text v Hrep
                  (S (String.length (element_text v))) ltac:(lia)
                  "" eq_refl) as Hp.
    rewrite StrFacts.app_nil_r in Hp. by rewrite Hp.
Qed.


(** ** The structured payloads *)

(** C6, as the code has it.  With a resolved token and arguments that JSON
    can carry (nothing [undefined] inside, distinct keys), the body of the
    one request of [createUser] and of [updateUser] parses back to the
    [user] argument itself, and the body of [inviteUser] parses back to the
    object [{user, party, tag}] the function builds from its three
    arguments. *)
Theorem structured_body_parses_back {W : Type} (this : host W)
    (user party tag : jsval) (w w1 : W) (r accessToken : jsval) :
  ensureAccessToken this w = (Fulfilled r, w1) →
  get_property r "accessToken" = Some accessToken →
  JSON.representable user = true →
  JSON.representable party = true →
  JSON.representable tag = true →
  (∃ body,
     requests (run this (createUser util.postJSON this [user]) w).2 =
       [[prefix this .+ JStr "user/create?access_token=" .+ accessToken;
         JObj [("method", JStr "POST"); ("data", JStr body)]]] ∧
     JSON.parse body = Some user) ∧
  (∃ body,
     requests (run this (updateUser util.postJSON this [user]) w).2 =
       [[prefix this .+ JStr "user/update?access_token=" .+ accessToken;
         JObj [("method", JStr "POST"); ("data", JStr body)]]] ∧
     JSON.parse body = Some user) ∧
  (∃ body,
     requests
       (run this (inviteUser util.postJSON this [user; party; tag]) w).2 =
       [[prefix this .+ JStr "batch/invite?access_token=" .+ accessToken;
         JObj [("method", JStr "POST"); ("data", JStr body)]]] ∧
     JSON.parse body =
       Some (JObj [("user", user); ("party", party); ("tag", tag)])).
Proof.
  intros Hens Htok Huser Hparty Htag.
  destruct (parse_stringify user Huser) as (body & Hbody & Hparse).
  assert (JSON.representable
            (JObj [("user", user); ("party", party); ("tag", tag)]) = true)
    as Hopts.
  { cbn [JSON.representable forallb map fst snd].
    by rewrite Huser, Hparty, Htag. }
  destruct (parse_stringify _ Hopts) as (body' & Hbody' & Hparse').
  split; [|split].
  - exists body. split; [|done].
    etransitivity;
      [exact (requests_gated this "user/create?access_token="
                [util.postJSON user] w w1 r accessToken Hens Htok)|].
    unfold util.postJSON. by rewrite Hbody.
  - exists body. split; [|done].
    etransitivity;
      [exact (requests_gated this "user/update?access_token="
                [util.postJSON user] w w1 r accessToken Hens Htok)|].
    unfold util.postJSON. by rewrite Hbody.
  - exists body'. split; [|done].
    etransitivity;
      [exact (requests_gated this "batch/invite?access_token="
                [util.postJSON
                   (JObj [("user", user); ("party", party); ("tag", tag)])]
                w w1 r accessToken Hens Htok)|].
    unfold util.postJSON. by rewrite Hbody'.
Qed.

(** The statement on the sample host, for the member record of the file's
    documentation and an invitation of one member, one department and one
    tag. *)
Lemma structured_body_parses_back_witness :
  let user :=
    JObj [("userid", JStr "zhangsan"); ("department", JArr [JNum 1; JNum 2]);
          ("mobile", JStr "15913215421"); ("gender", JNum 1)] in
  let party := JArr [JNum 2] in
  let tag := JArr [JNum 7] in
  (∃ body,
     requests (run sample_host (createUser util.postJSON sample_host [user])
                 0).2 =
       [[prefix sample_host .+ JStr "user/create?access_token="
           .+ JStr "TOKEN";
         JObj [("method", JStr "POST"); ("data", JStr body)]]] ∧
     JSON.parse body = Some user) ∧
  (∃ body,
     requests (run sample_host (updateUser util.postJSON sample_host [user])
                 0).2 =
       [[prefix sample_host .+ JStr "user/update?access_token="
           .+ JStr "TOKEN";
         JObj [("method", JStr "POST"); ("data", JStr body)]]] ∧
     JSON.parse body = Some user) ∧
  (∃ body,
     requests
       (run sample_host
          (inviteUser util.postJSON sample_host [user; party; tag]) 0).2 =
       [[prefix sample_host .+ JStr "batch/invite?access_token="
           .+ JStr "TOKEN";
         JObj [("method", JStr "POST"); ("data", JStr body)]]] ∧
     JSON.parse body =
       Some (JObj [("user", user); ("party", party); ("tag", tag)])).
Proof.
  apply (structured_body_parses_back sample_host
           (JObj [("userid", JStr "zhangsan");
                  ("department", JArr [JNum 1; JNum 2]);
                  ("mobile", JStr "15913215421"); ("gender", JNum 1)])
           (JArr [JNum 2]) (JArr [JNum 7]) 0 1
           (JObj [("accessToken", JStr "TOKEN")]) (JStr "TOKEN"));
    reflexivity.
Defined.

(** C6, as the spec states it, fails twice.  [inviteUser] does not send an
    argument as the body: the body parses back to an object that wraps the
    three arguments and is none of them.  And JSON does not carry every
    input: an [undefined] inside an array of the record comes back as
    [null], so the body of [createUser] parses back to another value than
    the record. *)
Lemma structured_body_counterexample :
  let user := JArr [JStr "zhangsan"] in
  let party := JArr [JNum 2] in
  let tag := JArr [JNum 7] in
  let record :=
    JObj [("userid", JStr "zhangsan");
          ("department", JArr [JNum 1; JUndefined])] in
  (∃ url body parsed,
     requests
       (run sample_host
          (inviteUser util.postJSON sample_host [user; party; tag]) 0).2 =
       [[url; JObj [("method", JStr "POST"); ("data", JStr body)]]] ∧
     JSON.parse body = Some parsed ∧
     parsed ≠ user ∧ parsed ≠ party ∧ parsed ≠ tag) ∧
  (∃ url body parsed,
     requests
       (run sample_host (createUser util.postJSON sample_host [record]) 0).2 =
       [[url; JObj [("method", JStr "POST"); ("data", JStr body)]]] ∧
     JSON.parse body = Some parsed ∧
     parsed ≠ record).
Proof.
  split; eexists _, _, _.
  - split; [reflexivity|]. split; [vm_compute; reflexivity|].
    repeat split; discriminate.
  - split; [reflexivity|]. split; [vm_compute; reflexivity|].
    intros [=].
Qed.

(** * Further properties of the code *)

(** ** Every asynchronous function, whatever the collaborators do *)

Section Discipline.
Context {W : Type}.
Variable postJSON : jsval → jsval.

(** An exported name of the table, called on a host whose accessor resolves:
    the one request, for any prefix and token value. *)
Lemma invoke_gated_path (this : host W) (name path : string)
    (args : list jsval) (w w1 : W) (r accessToken : jsval) :
  In (name, path) gated_paths →
  ensureAccessToken this w = (Fulfilled r, w1) →
  get_property r "accessToken" = Some accessToken →
  ∃ options,
    invoke postJSON name this args w =
      Some (let req :=
              (prefix this .+ JStr (path +:+ "?access_token=") .+ accessToken)
              :: options in
            ((request this req w1).1, (request this req w1).2,
             [EnsureAccessToken; Request req])).
Proof.
  intros Hin Hens Htok. unfold gated_paths in Hin. simpl in Hin.
  repeat (destruct Hin as [Hin|Hin];
    [injection Hin as <- <-; eexists;
     erewrite invoke_gated;
       [reflexivity|reflexivity|reflexivity|exact Hens|exact Htok]|]).
  destruct Hin.
Qed.

Lemma own_property_absent (k : string) (props : list (string * jsval)) :
  existsb (String.eqb k) (map fst props) = false →
  own_property k props = JUndefined.
Proof.
  induction props as [|[k' v] props IH]; [done|]. simpl.
  intros [Hk Hrest]%orb_false_elim. rewrite Hk. by apply IH.
Qed.

End Discipline.

(** X1. Every asynchronous function the file assigns, on a host whose
    accessor resolves to a value with a token: it sends one request, in the
    world the accessor left, and settles exactly as that request settles, a
    rejection with its error and a value unchanged. *)
Theorem gated_settles_as_request (postJSON : jsval → jsval) {W : Type}
    (this : host W) (name : string) (f : host W → list jsval → async jsval)
    (args : list jsval) (w w1 : W) (r accessToken : jsval) :
  In (name, AsyncFn f) (assignments postJSON) →
  ensureAccessToken this w = (Fulfilled r, w1) →
  get_property r "accessToken" = Some accessToken →
  ∃ req, ∀ out w2,
    request this req w1 = (out, w2) →
    run this (f this args) w = (out, w2, [EnsureAccessToken; Request req]).
Proof.
  intros Hin Hens Htok.
  destruct (assigned_async_gated postJSON name f Hin) as (path & others & Hf).
  exists ((prefix this .+ JStr path .+ accessToken) :: others this args).
  intros out w2 Hreq.
  rewrite Hf, run_gated, Hens, Htok. cbv zeta. by rewrite Hreq.
Qed.

(** The statement at [updateUser] on the sample host. *)
Lemma gated_settles_as_request_witness :
  ∃ req, ∀ out w2,
    request sample_host req 1 = (out, w2) →
    run sample_host
      (updateUser util.postJSON sample_host [JObj [("userid", JStr "lisi")]])
      0 = (out, w2, [EnsureAccessToken; Request req]).
Proof.
  apply (gated_settles_as_request util.postJSON sample_host "updateUser"
           (updateUser util.postJSON) [JObj [("userid", JStr "lisi")]] 0 1
           (JObj [("accessToken", JStr "TOKEN")]) (JStr "TOKEN")).
  - simpl. tauto.
  - reflexivity.
  - reflexivity.
Defined.

(** X2. When the accessor resolves to [undefined] or [null], the
    destructuring of its result throws: the call rejects with a [TypeError]
    in the world the accessor left, and no request is sent. *)
Theorem nullish_accessor_result_rejects (postJSON : jsval → jsval) {W : Type}
    (this : host W) (name : string) (f : host W → list jsval → async jsval)
    (args : list jsval) (w w1 : W) (r : jsval) :
  In (name, AsyncFn f) (assignments postJSON) →
  ensureAccessToken this w = (Fulfilled r, w1) →
  r = JUndefined ∨ r = JNull →
  run this (f this args) w = (Rejected TypeError, w1, [EnsureAccessToken]).
Proof.
  intros Hin Hens Hr.
  destruct (assigned_async_gated postJSON name f Hin) as (path & others & Hf).
  rewrite Hf, run_gated, Hens. by destruct Hr as [-> | ->].
Qed.

Lemma nullish_accessor_result_rejects_witness :
  run (Host (prefix sample_host) (corpid sample_host) (agentid sample_host)
         (λ w, (Fulfilled JUndefined, S w)) (request sample_host))
    (getCallbackIp
       (Host (prefix sample_host) (corpid sample_host) (agentid sample_host)
          (λ w, (Fulfilled JUndefined, S w)) (request sample_host)) []) 0 =
  (Rejected TypeError, 1, [EnsureAccessToken]).
Proof.
  apply (nullish_accessor_result_rejects util.postJSON
           (Host (prefix sample_host) (corpid sample_host)
              (agentid sample_host) (λ w, (Fulfilled JUndefined, S w))
              (request sample_host))
           "getCallbackIp" getCallbackIp [] 0 1 JUndefined).
  - simpl. tauto.
  - reflexivity.
  - left. reflexivity.
Defined.

(** X3. When the accessor resolves to an object that has no [accessToken]
    property, nothing is checked: the request is sent all the same, and its
    URL ends with the text [access_token=undefined]. *)
Theorem missing_token_key_sends_undefined (postJSON : jsval → jsval)
    {W : Type} (this : host W) (name path : string) (args : list jsval)
    (w w1 : W) (p : string) (props : list (string * jsval)) :
  In (name, path) gated_paths →
  prefix this = JStr p →
  ensureAccessToken this w = (Fulfilled (JObj props), w1) →
  existsb (String.eqb "accessToken") (map fst props) = false →
  ∃ options,
    invoke postJSON name this args w =
      Some (let req :=
              JStr (p +:+ path +:+ "?access_token=undefined") :: options in
            ((request this req w1).1, (request this req w1).2,
             [EnsureAccessToken; Request req])).
Proof.
  intros Hin Hp Hens Habsent.
  destruct (invoke_gated_path postJSON this name path args w w1 (JObj props)
              JUndefined Hin Hens) as [options Hinv].
  { cbn [get_property]. by rewrite own_property_absent. }
  exists options. rewrite Hinv, Hp.
  change (JStr p .+ JStr (path +:+ "?access_token=") .+ JUndefined)
    with (JStr ((p +:+ path +:+ "?access_token=") +:+ "undefined")).
  by rewrite !StrFacts.app_assoc.
Qed.

Lemma missing_token_key_sends_undefined_witness :
  ∃ options,
    invoke util.postJSON "getUser"
      (Host (JStr "https://qyapi.weixin.qq.com/cgi-bin/") JUndefined JUndefined
         (λ w, (Fulfilled (JObj [("access_token", JStr "TOKEN")]), S w))
         (request sample_host))
      [JStr "lisi"] 0 =
      Some (let req :=
              JStr ("https://qyapi.weixin.qq.com/cgi-bin/" +:+ "user/get"
                    +:+ "?access_token=undefined") :: options in
            ((request sample_host req 1).1, (request sample_host req 1).2,
             [EnsureAccessToken; Request req])).
Proof.
  apply (missing_token_key_sends_undefined util.postJSON
           (Host (JStr "https://qyapi.weixin.qq.com/cgi-bin/") JUndefined
              JUndefined
              (λ w, (Fulfilled (JObj [("access_token", JStr "TOKEN")]), S w))
              (request sample_host))
           "getUser" "user/get" [JStr "lisi"] 0 1
           "https://qyapi.weixin.qq.com/cgi-bin/"
           [("access_token", JStr "TOKEN")]).
  - simpl. tauto.
  - reflexivity.
  - reflexivity.
  - reflexivity.
Defined.

(** X4. Whatever the collaborators do, an asynchronous function of the file
    calls the accessor once, before anything else, and the transport at most
    once: its log is the accessor call alone or the accessor call followed
    by one request.  Nothing is retried. *)
Theorem accessor_first_request_at_most_once (postJSON : jsval → jsval)
    {W : Type} (this : host W) (name : string)
    (f : host W → list jsval → async jsval) (args : list jsval) (w : W) :
  In (name, AsyncFn f) (assignments postJSON) →
  (run this (f this args) w).2 = [EnsureAccessToken] ∨
  ∃ req, (run this (f this args) w).2 = [EnsureAccessToken; Request req].
Proof.
  intros Hin.
  destruct (assigned_async_gated postJSON name f Hin) as (path & others & Hf).
  rewrite Hf, run_gated.
  destruct (ensureAccessToken this w) as [[r|e] w1]; [|by left].
  destruct (get_property r "accessToken") as [tok|]; [|by left].
  right. by eexists.
Qed.

Lemma accessor_first_request_at_most_once_witness :
  (run expired_host (inviteUser util.postJSON expired_host []) 0).2 =
    [EnsureAccessToken] ∨
  ∃ req,
    (run expired_host (inviteUser util.postJSON expired_host []) 0).2 =
      [EnsureAccessToken; Request req].
Proof.
  apply (accessor_first_request_at_most_once util.postJSON expired_host
           "inviteUser" (inviteUser util.postJSON) [] 0).
  simpl. tauto.
Defined.

(** ** What [exports] holds *)

Section Exports.
Context {W : Type}.
Variable postJSON : jsval → jsval.

Lemma exported_name_cases (name : string) :
  is_Some (@exports W postJSON !! name) →
  (∃ path, In (name, path) gated_paths) ∨ name = "getAuthorizeURL".
Proof.
  intros [fn H]. apply exports_assigned in H.
  unfold assignments in H. simpl in H.
  repeat (destruct H as [H|H];
          [injection H as <- _;
           first [ by right | left; eexists; simpl; tauto ]|]).
  destruct H.
Qed.

(** The collaborators of a host do not read its [corpid]. *)
Lemma run_with_corpid {A : Type} (c : jsval) (this : host W) (p : async A)
    (w : W) :
  run (with_corpid c this) p w = run this p w.
Proof.
  revert w. induction p as [x|e|k cont IH]; intros w; simpl; [done..|].
  change (perform (with_corpid c this) k w) with (perform this k w).
  destruct (perform this k w) as [[v|e] w1]; [|done].
  by rewrite IH.
Qed.

End Exports.

Lemma app_cancel_r (a b t : string) : a +:+ t = b +:+ t → a = b.
Proof.
  revert b. induction a as [|c a IH]; intros [|d b] H.
  - reflexivity.
  - apply (f_equal String.length) in H.
    cbn [String.append String.length] in H.
    rewrite StrFacts.app_length in H. lia.
  - apply (f_equal String.length) in H.
    cbn [String.append String.length] in H.
    rewrite StrFacts.app_length in H. lia.
  - cbn [String.append] in H. injection H as -> H. f_equal. by apply IH.
Qed.

(** Two URL texts on the same prefix, query key and token are equal only
    when their paths are. *)
Lemma url_text_inj (pre a b q tok : string) :
  (pre +:+ a +:+ q) +:+ tok = (pre +:+ b +:+ q) +:+ tok → a = b.
Proof.
  intros H. apply app_cancel_r in H.
  apply (String.app_inj pre) in H. by apply app_cancel_r in H.
Qed.

(** X5. The module exports exactly ten names, though the file makes eleven
    assignments: the second [deleteUser] replaces the first.  A name outside
    the list, such as the [deleteUsers] of the comment above the batch
    delete, is not exported. *)
Theorem exported_names_exact (postJSON : jsval → jsval) (W : Type) :
  (∀ name, is_Some (@exports W postJSON !! name) ↔ In name exported_names) ∧
  base.size (@exports W postJSON) = 10 ∧
  length (@assignments W postJSON) = 11 ∧
  @exports W postJSON !! "deleteUsers" = None.
Proof.
  split; [|by vm_compute].
  intros name. split.
  - intros H. destruct (exported_name_cases postJSON name H) as [[path Hp]| ->].
    + unfold gated_paths in Hp. simpl in Hp.
      repeat (destruct Hp as [Hp|Hp]; [injection Hp as <- _; simpl; tauto|]).
      destruct Hp.
    + simpl. tauto.
  - unfold exported_names. simpl. intros H.
    repeat (destruct H as [<-|H]; [by eexists|]). destruct H.
Qed.

(** X6. No two exported operations share an endpoint: called on the same
    host in the same world, with a token resolved, two different names of
    the table send their requests to different URLs. *)
Theorem endpoints_distinct (postJSON : jsval → jsval) {W : Type}
    (this : host W) (n1 n2 p1 p2 : string) (args1 args2 : list jsval)
    (w w1 : W) (r accessToken : jsval)
    (res1 res2 : settled jsval * W * list call) :
  In (n1, p1) gated_paths →
  In (n2, p2) gated_paths →
  n1 ≠ n2 →
  ensureAccessToken this w = (Fulfilled r, w1) →
  get_property r "accessToken" = Some accessToken →
  invoke postJSON n1 this args1 w = Some res1 →
  invoke postJSON n2 this args2 w = Some res2 →
  request_urls res1.2 ≠ request_urls res2.2.
Proof.
  intros Hin1 Hin2 Hne Hens Htok Hinv1 Hinv2 Hurls. apply Hne.
  destruct (invoke_gated_path postJSON this n1 p1 args1 w w1 r accessToken
              Hin1 Hens Htok) as [o1 E1].
  destruct (invoke_gated_path postJSON this n2 p2 args2 w w1 r accessToken
              Hin2 Hens Htok) as [o2 E2].
  rewrite E1 in Hinv1. rewrite E2 in Hinv2.
  injection Hinv1 as <-. injection Hinv2 as <-.
  cbv zeta in Hurls. cbn [snd request_urls requests omap list_omap map arg nth]
    in Hurls.
  injection Hurls as Hurl. apply url_text_inj in Hurl.
  subst p2. clear -Hin1 Hin2.
  unfold gated_paths in *. simpl in *.
  repeat (destruct Hin1 as [Hin1|Hin1];
    [injection Hin1 as <- <-;
     repeat (destruct Hin2 as [Hin2|Hin2];
       [first [ by injection Hin2 as <- | discriminate Hin2 ]|]);
     destruct Hin2|]).
  destruct Hin1.
Qed.

(** The statement at the two department listings on the sample host. *)
Lemma endpoints_distinct_witness :
  request_urls
    (run sample_host (getDepartmentUsers sample_host [JNum 1; JNum 0]) 0).2 ≠
  request_urls
    (run sample_host (getDepartmentUsersDetail sample_host [JNum 1; JNum 0])
       0).2.
Proof.
  apply (endpoints_distinct util.postJSON sample_host
           "getDepartmentUsers" "getDepartmentUsersDetail"
           "user/simplelist" "user/list" [JNum 1; JNum 0] [JNum 1; JNum 0]
           0 1 (JObj [("accessToken", JStr "TOKEN")]) (JStr "TOKEN")
           (run sample_host (getDepartmentUsers sample_host [JNum 1; JNum 0])
              0)
           (run sample_host
              (getDepartmentUsersDetail sample_host [JNum 1; JNum 0]) 0)).
  - simpl. tauto.
  - simpl. tauto.
  - discriminate.
  - reflexivity.
  - reflexivity.
  - reflexivity.
  - reflexivity.
Defined.

(** X7. The endpoint of the single-member delete is out of reach: whatever
    name of [exports] is called, with whatever arguments, on a host whose
    accessor resolves, the call never sends a request to the URL the first
    [deleteUser] of the file would use. *)
Theorem single_delete_endpoint_unreachable (postJSON : jsval → jsval)
    {W : Type} (this : host W) (name : string) (args args' : list jsval)
    (w w1 : W) (r accessToken : jsval) (res : settled jsval * W * list call) :
  ensureAccessToken this w = (Fulfilled r, w1) →
  get_property r "accessToken" = Some accessToken →
  invoke postJSON name this args w = Some res →
  request_urls res.2 ≠
  request_urls (run this (deleteUser_single this args') w).2.
Proof.
  intros Hens Htok Hinv.
  change (deleteUser_single this args')
    with (gated this "user/delete?access_token="
            [JObj [("data", JObj [("userid", arg 0 args')])]]).
  rewrite run_gated, Hens, Htok.
  assert (is_Some (@exports W postJSON !! name)) as Hsome.
  { unfold invoke in Hinv. destruct (exports postJSON !! name); [by eexists|].
    discriminate Hinv. }
  destruct (exported_name_cases postJSON name Hsome) as [[path Hp]| ->].
  - destruct (invoke_gated_path postJSON this name path args w w1 r
                accessToken Hp Hens Htok) as [o E].
    rewrite E in Hinv. injection Hinv as <-.
    cbv zeta. cbn [snd request_urls requests omap list_omap map arg nth].
    intros [= Hurl].
    change "user/delete?access_token="
      with ("user/delete" +:+ "?access_token=") in Hurl.
    apply url_text_inj in Hurl. subst path.
    unfold gated_paths in Hp. simpl in Hp.
    repeat (destruct Hp as [Hp|Hp]; [discriminate Hp|]). destruct Hp.
  - change (invoke postJSON "getAuthorizeURL" this args w)
      with (Some (Fulfilled (getAuthorizeURL this args), w, @nil call))
      in Hinv.
    injection Hinv as <-. discriminate.
Qed.

Lemma single_delete_endpoint_unreachable_witness :
  request_urls
    (run sample_host (deleteUser util.postJSON sample_host [JStr "lisi"])
       0).2 ≠
  request_urls
    (run sample_host (deleteUser_single sample_host [JStr "lisi"]) 0).2.
Proof.
  apply (single_delete_endpoint_unreachable util.postJSON sample_host
           "deleteUser" [JStr "lisi"] [JStr "lisi"] 0 1
           (JObj [("accessToken", JStr "TOKEN")]) (JStr "TOKEN")
           (run sample_host
              (deleteUser util.postJSON sample_host [JStr "lisi"]) 0));
    reflexivity.
Defined.

(** X8. [corpid] is read by [getAuthorizeURL] only: every other function
    assigned in the file does the same on a host that differs in that field
    alone. *)
Theorem corpid_read_by_getAuthorizeURL_only (postJSON : jsval → jsval)
    {W : Type} (this : host W) (name : string) (fn : exported W) (c : jsval)
    (args : list jsval) (w : W) :
  In (name, fn) (assignments postJSON) →
  name ≠ "getAuthorizeURL" →
  call_exported fn (with_corpid c this) args w = call_exported fn this args w.
Proof.
  intros Hin Hne. unfold assignments in Hin. simpl in Hin.
  repeat (destruct Hin as [Hin|Hin];
    [injection Hin as <- <-;
     first [ exfalso; apply Hne; reflexivity
           | unfold call_exported; rewrite ?run_with_corpid; reflexivity ]
    |]).
  destruct Hin.
Qed.

Lemma corpid_read_by_getAuthorizeURL_only_witness :
  call_exported (AsyncFn getUserIdByCode)
    (with_corpid (JStr "ww5678") sample_host) [JStr "CODE"] 0 =
  call_exported (AsyncFn getUserIdByCode) sample_host [JStr "CODE"] 0.
Proof.
  apply (corpid_read_by_getAuthorizeURL_only util.postJSON sample_host
           "getUserIdByCode" (AsyncFn getUserIdByCode) (JStr "ww5678")
           [JStr "CODE"] 0).
  - simpl. tauto.
  - discriminate.
Defined.



(** ** The authorization URL: its form, and what can be read back from it *)

Module EscapeFacts.
Import querystring.

Lemma count_app (c : ascii) (a b : string) :
  count c (a +:+ b) = count c a + count c b.
Proof. induction a as [|d a IH]; simpl; [done|]. rewrite IH. lia. Qed.

Lemma url_safe_app (a b : string) :
  url_safe (a +:+ b) = url_safe a && url_safe b.
Proof. induction a as [|c a IH]; simpl; [done|]. by rewrite IH, andb_assoc. Qed.

(** A character that [escape] would replace, other than the percent sign,
    does not stand in a text of safe characters. *)
Lemma count_url_safe (c : ascii) (s : string) :
  noEscape c = false → c ≠ "%"%char → url_safe s = true → count c s = 0.
Proof.
  intros Hc Hpct. induction s as [|d s IH]; [done|]. simpl.
  intros [Hd Hs]%andb_prop. rewrite (IH Hs).
  destruct (Ascii.eqb_spec c d) as [<-|]; [|done].
  rewrite Hc in Hd. simpl in Hd. apply Ascii.eqb_eq in Hd. done.
Qed.

Lemma url_safe_escape (s : string) : url_safe (escape s) = true.
Proof.
  induction s as [|c s IH]; [reflexivity|].
  cbn [escape]. rewrite url_safe_app, IH, andb_true_r.
  destruct c as [[] [] [] [] [] [] [] []]; vm_compute; reflexivity.
Qed.

Lemma url_safe_digits (s : string) : all_digits s = true → url_safe s = true.
Proof.
  induction s as [|c s IH]; [done|]. simpl.
  intros [Hc Hs]%andb_prop. rewrite (IH Hs), andb_true_r.
  unfold noEscape. unfold JSON.is_digit in Hc. by rewrite Hc.
Qed.

Lemma url_safe_number (z : Z) : url_safe (Number.toString z) = true.
Proof.
  destruct z as [|p|p]; [reflexivity| |]; cbn [Number.toString].
  - apply url_safe_digits, NumberFacts.N_toString_spec.
  - rewrite url_safe_app. simpl.
    apply url_safe_digits, NumberFacts.N_toString_spec.
Qed.

Lemma url_safe_encodeStringified (v : jsval) :
  url_safe (encodeStringified v) = true.
Proof.
  destruct v as [| |[]| | | |]; try reflexivity.
  - apply url_safe_number.
  - apply url_safe_escape.
Qed.

(** One character, escaped and decoded. *)
Lemma percent_decode_char (c : ascii) (rest : string) :
  percent_decode ((if noEscape c then String c "" else hexTable c) +:+ rest) =
  String c (percent_decode rest).
Proof.
  destruct c as [[] [] [] [] [] [] [] []];
    match goal with
    | |- context [if noEscape ?c then ?a else ?b] =>
        let q := eval vm_compute in (if noEscape c then a else b) in
        change (if noEscape c then a else b) with q
    end;
    first [ reflexivity
          | destruct rest as [|h [|l r']]; try reflexivity;
            cbn [String.append percent_decode];
            destruct (JSON.hex_value h), (JSON.hex_value l); reflexivity ].
Qed.

(** Percent-decoding gives back what [escape] was given. *)
Lemma percent_decode_escape (s : string) : percent_decode (escape s) = s.
Proof.
  induction s as [|c s IH]; [reflexivity|].
  cbn [escape]. by rewrite percent_decode_char, IH.
Qed.

Lemma escape_inj (a b : string) : escape a = escape b → a = b.
Proof.
  intros H. apply (f_equal percent_decode) in H.
  by rewrite !percent_decode_escape in H.
Qed.

(** Two texts free of [c] that are followed by [c] end at the same place. *)
Lemma split_at (c : ascii) (a b x y : string) :
  count c a = 0 → count c b = 0 →
  a +:+ String c x = b +:+ String c y → a = b ∧ x = y.
Proof.
  revert b. induction a as [|d a IH]; intros [|e b] Ha Hb H;
    cbn [String.append] in H.
  - by injection H as ->.
  - injection H as <- _. simpl in Hb. rewrite Ascii.eqb_refl in Hb. lia.
  - injection H as -> _. simpl in Ha. rewrite Ascii.eqb_refl in Ha. lia.
  - injection H as -> H. simpl in Ha, Hb.
    destruct (IH b ltac:(lia) ltac:(lia) H) as [-> ->]. done.
Qed.

End EscapeFacts.

Section AuthorizeForm.
Context {W : Type}.
Import querystring.

Lemma is_array_js_or (a b : jsval) :
  is_array a = false → is_array b = false → is_array (js_or a b) = false.
Proof. intros Ha Hb. unfold js_or. by destruct (truthy a). Qed.

Lemma appid_fields_scalar (this : host W) :
  is_array (corpid this) = false →
  sep_after (fields_from [("appid", corpid this)] "") =
  "appid=" +:+ encodeStringified (corpid this) +:+ "&".
Proof.
  intros Hc. rewrite (QsFacts.fields_from_scalar _ _ _ Hc).
  rewrite QsFacts.sep_after_ne
    by (apply QsFacts.app_nonempty_r, QsFacts.app_nonempty_l; discriminate).
  cbn [sep_after]. rewrite !StrFacts.app_assoc. reflexivity.
Qed.

(** The URL when no value is an array. *)
Lemma authorize_url_of_scalars (this : host W) (redirect state scope : jsval) :
  is_array (corpid this) = false →
  is_array redirect = false →
  is_array state = false →
  is_array scope = false →
  getAuthorizeURL this [redirect; state; scope] =
  JStr (authorize_base
        +:+ "appid=" +:+ encodeStringified (corpid this)
        +:+ "&redirect_uri=" +:+ encodeStringified redirect
        +:+ "&response_type=code&scope="
        +:+ encodeStringified (js_or scope (JStr "snsapi_base"))
        +:+ "&state=" +:+ encodeStringified (js_or state (JStr ""))
        +:+ "#wechat_redirect").
Proof.
  intros Hc Hr Hst Hsc.
  rewrite getAuthorizeURL_eq. cbn [arg nth].
  rewrite stringify_authorize_scalars
    by (done || by apply is_array_js_or).
  rewrite (appid_fields_scalar this Hc).
  unfold authorize_base. f_equal. rewrite !StrFacts.app_assoc. reflexivity.
Qed.

(** The effective values of string arguments. *)
Lemma js_or_nonempty (s d : string) :
  s ≠ "" → js_or (JStr s) (JStr d) = JStr s.
Proof.
  intros Hs. unfold js_or. cbn [truthy].
  destruct (String.eqb_spec s "") as [->|]; done.
Qed.

Lemma js_or_empty_default (s : string) : js_or (JStr s) (JStr "") = JStr s.
Proof.
  unfold js_or. cbn [truthy].
  destruct (String.eqb_spec s "") as [->|]; done.
Qed.

End AuthorizeForm.



(** X11. Values cannot add or split query parameters.  When [corpid] and
    the three arguments are not arrays, the URL has exactly four [&], five
    [=], one [?] and one [#], whatever characters the values hold. *)
Theorem getAuthorizeURL_separators_fixed {W : Type} (this : host W)
    (redirect state scope : jsval) :
  is_array (corpid this) = false →
  is_array redirect = false →
  is_array state = false →
  is_array scope = false →
  ∃ url,
    getAuthorizeURL this [redirect; state; scope] = JStr url ∧
    count "&" url = 4 ∧ count "=" url = 5 ∧
    count "?" url = 1 ∧ count "#" url = 1.
Proof.
  intros Hc Hr Hst Hsc. eexists. split.
  { by apply authorize_url_of_scalars. }
  assert (∀ c v, querystring.noEscape c = false → c ≠ "%"%char →
            count c (querystring.encodeStringified v) = 0) as Hzero.
  { intros c v H1 H2. apply EscapeFacts.count_url_safe; [done..|].
    apply EscapeFacts.url_safe_encodeStringified. }
  repeat split; rewrite !EscapeFacts.count_app, !Hzero by done; reflexivity.
Qed.

(** The statement for a redirect and a state full of separators. *)
Lemma getAuthorizeURL_separators_fixed_witness :
  ∃ url,
    getAuthorizeURL sample_host
      [JStr "https://cb.example/?a=1&b=2#top"; JStr "x&scope=all#";
       JStr "snsapi_base&state=y"] = JStr url ∧
    count "&" url = 4 ∧ count "=" url = 5 ∧
    count "?" url = 1 ∧ count "#" url = 1.
Proof.
  apply (getAuthorizeURL_separators_fixed sample_host
           (JStr "https://cb.example/?a=1&b=2#top") (JStr "x&scope=all#")
           (JStr "snsapi_base&state=y")); reflexivity.
Defined.



(** X13. An empty array as scope is truthy, so the default is not applied,
    and [querystring.stringify] leaves a key with an empty array out: the
    URL then has no scope field at all. *)
Theorem getAuthorizeURL_empty_array_scope {W : Type} (this : host W)
    (redirect state : jsval) :
  is_array (corpid this) = false →
  is_array redirect = false →
  is_array state = false →
  getAuthorizeURL this [redirect; state; JArr []] =
  JStr ("https://open.weixin.qq.com/connect/oauth2/authorize?"
        +:+ "appid=" +:+ querystring.encodeStringified (corpid this)
        +:+ "&redirect_uri=" +:+ querystring.encodeStringified redirect
        +:+ "&response_type=code&state="
        +:+ querystring.encodeStringified (js_or state (JStr ""))
        +:+ "#wechat_redirect").
Proof.
  intros Hc Hr Hst.
  rewrite getAuthorizeURL_eq, stringify_authorize_info. cbn [arg nth].
  change (js_or (JArr []) (JStr "snsapi_base")) with (JArr []).
  rewrite QsFacts.fields_from_cons.
  change (querystring.fields_from [("scope", JArr [])] ?f) with f.
  rewrite QsFacts.fields_from_scalar by (by apply is_array_js_or).
  rewrite QsFacts.sep_after_ne by (apply QsFacts.app_nonempty_r; discriminate).
  unfold authorize_head.
  rewrite (QsFacts.fields_from_cons "appid" _ [_]).
  rewrite (QsFacts.fields_from_scalar "redirect_uri" _ _ Hr).
  rewrite (appid_fields_scalar this Hc).
  rewrite QsFacts.sep_after_ne
    by (apply QsFacts.app_nonempty_r, QsFacts.app_nonempty_l; discriminate).
  f_equal. rewrite !StrFacts.app_assoc. reflexivity.
Qed.

Lemma getAuthorizeURL_empty_array_scope_witness :
  getAuthorizeURL sample_host [JStr "https://cb.example"; JStr "s1"; JArr []] =
  JStr ("https://open.weixin.qq.com/connect/oauth2/authorize?"
        +:+ "appid="
        +:+ querystring.encodeStringified (corpid sample_host)
        +:+ "&redirect_uri="
        +:+ querystring.encodeStringified (JStr "https://cb.example")
        +:+ "&response_type=code&state="
        +:+ querystring.encodeStringified (js_or (JStr "s1") (JStr ""))
        +:+ "#wechat_redirect").
Proof.
  apply (getAuthorizeURL_empty_array_scope sample_host
           (JStr "https://cb.example") (JStr "s1")); reflexivity.
Defined.
